(** * op-releaser: version-bump releases for a plugin

    A shallow embedding of [op-releaser.py] and the proofs of its
    specification.  Python values are modelled as follows:
    - [int] is [Z], unbounded; only its conversion to and from [str] has
      the limit of the interpreter;
    - [str] is [string];
    - a raised exception is the [Raise] branch of [result];
    - the working directory, the repository in it, the logging output and
      the history of calls are fields of [World], threaded through the
      effectful functions by the monad [M]. *)

From Stdlib Require Import ZArith List Bool Lia.
From Stdlib Require Import Strings.Ascii Strings.String Strings.Byte.
From Stdlib Require Import Numbers.DecimalString Numbers.DecimalZ Numbers.DecimalFacts.
Import ListNotations.

Open Scope string_scope.
Open Scope Z_scope.

(** ** Exceptions *)

(** [Exception msg] is the plain [Exception] the script raises itself; the
    others are raised by the interpreter and by the libraries it calls. *)
Inductive exn : Type :=
| Exception (msg : string)
| KeyError (key : string)
| TypeError
| AttributeError
| ValueError (literal : string)
| UnicodeDecodeError
| TomlDecodeError
| FileNotFoundError
| InvalidGitRepositoryError
| GitCommandError (status : Z).

Inductive result (A : Type) : Type :=
| Ok (a : A)
| Raise (e : exn).
Arguments Ok {A} a.
Arguments Raise {A} e.

Definition rbind {A B : Type} (r : result A) (k : A -> result B) : result B :=
  match r with
  | Ok a => k a
  | Raise e => Raise e
  end.

(** ** The part of Python's [str] and [int] that the script uses *)

Module Py.

(** A character is a code point below 256.  The blanks that [int] skips
    around a literal: tab to carriage return and space and, past ASCII,
    U+0085 and U+00A0; the separators U+001C to U+001F are not among them. *)
Definition is_space (c : ascii) : bool :=
  let n := nat_of_ascii c in
  (((9 <=? n) && (n <=? 13)) || (n =? 32) || (n =? 133) || (n =? 160))%nat.

Definition is_digit (c : ascii) : bool :=
  let n := nat_of_ascii c in
  ((48 <=? n) && (n <=? 57))%nat.

(** Every character of [s] passes the test [p]. *)
Fixpoint all_chars (p : ascii -> bool) (s : string) : bool :=
  match s with
  | EmptyString => true
  | String c r => p c && all_chars p r
  end.

Fixpoint lstrip (s : string) : string :=
  match s with
  | EmptyString => EmptyString
  | String c r => if is_space c then lstrip r else s
  end.

Fixpoint rstrip (s : string) : string :=
  match s with
  | EmptyString => EmptyString
  | String c r =>
      match rstrip r with
      | EmptyString => if is_space c then EmptyString else String c EmptyString
      | r' => String c r'
      end
  end.

Definition strip (s : string) : string := rstrip (lstrip s).

(** The scan of an integer literal: the run of digits at the head of [s],
    where one underscore may stand between two digits, without its
    underscores, and what follows the run.  [None] where an underscore is
    out of place or no digit is found; [after_digit] tells that the
    character before was a digit. *)
Fixpoint scan_literal (after_digit : bool) (s : string) : option (string * string) :=
  match s with
  | EmptyString => if after_digit then Some (EmptyString, EmptyString) else None
  | String c r =>
      if is_digit c then
        match scan_literal true r with
        | Some (ds, rest) => Some (String c ds, rest)
        | None => None
        end
      else if Ascii.eqb c "_" then
        if after_digit then scan_literal false r else None
      else if after_digit then Some (EmptyString, s)
      else None
  end.

(** The limit of the interpreter on the conversion between [int] and
    [str] ([sys.get_int_max_str_digits()], 4300 unless it is configured
    otherwise), and the message of the [ValueError] beyond it. *)
Definition max_str_digits : Z := 4300.

Definition exceeds_limit : string :=
  "Exceeds the limit (4300 digits) for integer string conversion".

(** [int(s)] in base ten.  The digits are scanned and counted first: a
    literal of more digits than the limit is refused, whatever its value,
    before anything after the digits is looked at. *)
Definition int (s : string) : result Z :=
  let t := strip s in
  let '(negative, body) :=
    match t with
    | String "-" r => (true, r)
    | String "+" r => (false, r)
    | _ => (false, t)
    end in
  match scan_literal false body with
  | Some (ds, rest) =>
      if max_str_digits <? Z.of_nat (String.length ds)
      then Raise (ValueError exceeds_limit)
      else
        match rest, NilEmpty.uint_of_string ds with
        | EmptyString, Some d => Ok (if negative then - Z.of_uint d else Z.of_uint d)
        | _, _ => Raise (ValueError s)
        end
  | None => Raise (ValueError s)
  end.

(** The decimal string of an integer: what [str(n)] returns where it
    returns. *)
Definition str (n : Z) : string := NilZero.string_of_int (Z.to_int n).

(** The number of decimal digits of [n], the sign not counted. *)
Definition digits (n : Z) : nat := String.length (str (Z.abs n)).

(** [str(n)] as the interpreter runs it: an integer of more digits than
    the limit raises. *)
Definition str_run (n : Z) : result string :=
  if max_str_digits <? Z.of_nat (digits n) then Raise (ValueError exceeds_limit)
  else Ok (str n).

(** [sep.join(parts)]. *)
Definition join (sep : string) (parts : list string) : string :=
  String.concat sep parts.

(** [s.split(sep)] for a separator of one character: the pieces between
    the separators, always at least one. *)
Fixpoint split (sep : ascii) (s : string) : list string :=
  match s with
  | EmptyString => [EmptyString]
  | String c r =>
      if Ascii.eqb c sep then EmptyString :: split sep r
      else match split sep r with
           | p :: ps => String c p :: ps
           | [] => [String c EmptyString]
           end
  end.

(** [s.startswith(sub)]: the test behind every search below. *)
Fixpoint startswith (s sub : string) : bool :=
  match sub, s with
  | EmptyString, _ => true
  | String _ _, EmptyString => false
  | String a sub', String b s' => Ascii.eqb a b && startswith s' sub'
  end.

(** [sub in s]. *)
Fixpoint contains (sub s : string) : bool :=
  startswith s sub ||
  match s with
  | EmptyString => false
  | String _ r => contains sub r
  end.

(** [s.find(sub)], searching from offset [i]: the lowest index, or -1. *)
Fixpoint find_from (i : Z) (sub s : string) : Z :=
  if startswith s sub then i
  else match s with
       | EmptyString => -1
       | String _ r => find_from (i + 1) sub r
       end.

Definition find (s sub : string) : Z := find_from 0 sub s.

(** [s.rfind(sub)], searching from offset [i]: the highest index, or -1. *)
Fixpoint rfind_from (i : Z) (sub s : string) : Z :=
  let here := if startswith s sub then i else -1 in
  match s with
  | EmptyString => here
  | String _ r =>
      let later := rfind_from (i + 1) sub r in
      if later =? -1 then here else later
  end.

Definition rfind (s sub : string) : Z := rfind_from 0 sub s.

(** [s.replace(old, new)] for a non-empty [old]: the occurrences are
    taken from the left and do not overlap; [skip] counts the characters
    of the current occurrence still to drop. *)
Fixpoint replace_go (old new : string) (skip : nat) (s : string) : string :=
  match s with
  | EmptyString => EmptyString
  | String c r =>
      match skip with
      | S k => replace_go old new k r
      | O =>
          if startswith s old
          then new ++ replace_go old new (Nat.pred (String.length old)) r
          else String c (replace_go old new O r)
      end
  end.

(** With an empty [old], [new] goes before every character and at the end. *)
Fixpoint replace_empty (new s : string) : string :=
  match s with
  | EmptyString => new
  | String c r => new ++ String c (replace_empty new r)
  end.

Definition replace (s old new : string) : string :=
  match old with
  | EmptyString => replace_empty new s
  | String _ _ => replace_go old new O s
  end.

(** All the indices at which [sub] occurs in [s], ascending, counted from
    offset [i]. *)
Fixpoint occurrences_from (i : nat) (sub s : string) : list nat :=
  let rest :=
    match s with
    | EmptyString => []
    | String _ r => occurrences_from (S i) sub r
    end in
  if startswith s sub then i :: rest else rest.

Definition occurrences (sub s : string) : list nat := occurrences_from O sub s.

(** [s[i:]] and [s[:i]]. *)
Fixpoint drop (i : nat) (s : string) : string :=
  match i, s with
  | O, _ => s
  | S _, EmptyString => EmptyString
  | S k, String _ r => drop k r
  end.

Fixpoint take (i : nat) (s : string) : string :=
  match i, s with
  | O, _ => EmptyString
  | S _, EmptyString => EmptyString
  | S k, String c r => String c (take k r)
  end.

End Py.

(** [content] with the [length pv] characters at index [i] replaced by
    [nv]: [content[:i] + nv + content[i + len(pv):]]. *)
Definition swapped (pv content : string) (i : nat) (nv : string) : string :=
  Py.take i content ++ nv ++ Py.drop (i + String.length pv) content.

(** ** Versions *)

Definition not_dot (c : ascii) : bool := negb (Ascii.eqb c ".").

Definition VersionTuple : Type := (Z * Z * Z)%type.

(** [BumpLevel] is a type hint only: at run time the level is a [str]. *)
Definition BumpLevel : Type := string.

Definition version_to_str (ver : VersionTuple) : string :=
  let '(major, minor, patch) := ver in
  Py.join "." (map Py.str [major; minor; patch]).

(** [version_to_str] as the interpreter runs it, with the limit of
    [str]: the components are converted from the left, and
    [version_to_str] is the string returned where all three go through. *)
Definition version_to_str_run (ver : VersionTuple) : result string :=
  let '(major, minor, patch) := ver in
  rbind (Py.str_run major) (fun s0 =>
  rbind (Py.str_run minor) (fun s1 =>
  rbind (Py.str_run patch) (fun s2 =>
  Ok (Py.join "." [s0; s1; s2])))).

Definition version_from_str (version : string) : result VersionTuple :=
  match Py.split "." version with
  | [p0; p1; p2] =>
      rbind (Py.int p0) (fun major =>
      rbind (Py.int p1) (fun minor =>
      rbind (Py.int p2) (fun patch =>
      Ok (major, minor, patch))))
  | _ => Raise (Exception "expected version to be of the form X.Y.Z")
  end.

Definition bump_version (ver : VersionTuple) (bump_level : BumpLevel)
  : result VersionTuple :=
  let '(major, minor, patch) := ver in
  if String.eqb bump_level "major" then Ok (major + 1, 0, 0)
  else if String.eqb bump_level "minor" then Ok (major, minor + 1, 0)
  else if String.eqb bump_level "patch" then Ok (major, minor, patch + 1)
  else Raise (Exception ("bump_level provided was " ++ bump_level
                         ++ ", which is an invalid choice.")).

(** ** TOML documents *)

Local Set Warnings "-register-all".

(** What [toml.load] builds: a table is a [dict], the other values are
    kept by kind.  A table is searched from the left. *)
Inductive toml : Type :=
| TString (s : string)
| TInteger (n : Z)
| TBool (b : bool)
| TArray (items : list toml)
| TTable (entries : list (string * toml))
| TOther.

Fixpoint assoc (key : string) (entries : list (string * toml)) : option toml :=
  match entries with
  | [] => None
  | (k, v) :: rest => if String.eqb k key then Some v else assoc key rest
  end.

(** [value[key]] for a [str] key: only a table can be indexed so. *)
Definition getitem (value : toml) (key : string) : result toml :=
  match value with
  | TTable entries =>
      match assoc key entries with
      | Some v => Ok v
      | None => Raise (KeyError key)
      end
  | _ => Raise TypeError
  end.

(** The manifest has a [meta] table with a [name] entry. *)
Definition has_meta_name (info : list (string * toml)) : bool :=
  match assoc "meta" info with
  | Some (TTable meta) =>
      match assoc "name" meta with
      | Some _ => true
      | None => false
      end
  | _ => false
  end.

(** ** Decoding the build's output *)

Definition continuation (lo hi : N) (b : byte) : option N :=
  let n := Byte.to_N b in
  if ((lo <=? n) && (n <=? hi))%N then Some (n - 128)%N else None.

(** [bytes.decode("UTF8")] with the default strict error handling: the code
    points of a well-formed sequence, [None] where Python raises
    [UnicodeDecodeError] (a stray or missing continuation byte, an
    overlong form, a surrogate, a value above U+10FFFF). *)
Fixpoint decode_utf8 (bs : list byte) : option (list N) :=
  match bs with
  | [] => Some []
  | b0 :: r0 =>
      let n0 := Byte.to_N b0 in
      if (n0 <? 128)%N then option_map (cons n0) (decode_utf8 r0)
      else if ((194 <=? n0) && (n0 <=? 223))%N then
        match r0 with
        | b1 :: r1 =>
            match continuation 128 191 b1 with
            | Some c1 => option_map (cons ((n0 - 192) * 64 + c1)%N) (decode_utf8 r1)
            | None => None
            end
        | _ => None
        end
      else if ((224 <=? n0) && (n0 <=? 239))%N then
        match r0 with
        | b1 :: b2 :: r2 =>
            let lo := if (n0 =? 224)%N then 160%N else 128%N in
            let hi := if (n0 =? 237)%N then 159%N else 191%N in
            match continuation lo hi b1, continuation 128 191 b2 with
            | Some c1, Some c2 =>
                option_map (cons ((n0 - 224) * 4096 + c1 * 64 + c2)%N) (decode_utf8 r2)
            | _, _ => None
            end
        | _ => None
        end
      else if ((240 <=? n0) && (n0 <=? 244))%N then
        match r0 with
        | b1 :: b2 :: b3 :: r3 =>
            let lo := if (n0 =? 240)%N then 144%N else 128%N in
            let hi := if (n0 =? 244)%N then 143%N else 191%N in
            match continuation lo hi b1, continuation 128 191 b2,
                  continuation 128 191 b3 with
            | Some c1, Some c2, Some c3 =>
                option_map (cons ((n0 - 240) * 262144 + c1 * 4096 + c2 * 64 + c3)%N)
                           (decode_utf8 r3)
            | _, _, _ => None
            end
        | _ => None
        end
      else None
  end.

(** ** The world the script runs in *)

(** The repository found in the working directory. *)
Record Repo : Type := mkRepo {
  bare : bool;
  index : list string;      (* staged paths *)
  commits : list string;    (* commit messages, oldest first *)
  tags : list string
}.

(** The working directory: the manifest [./info.toml] ([None] when there is
    no such file), the repository ([None] when the directory holds no
    version-control metadata) and the names of the other files. *)
Record Disk : Type := mkDisk {
  info_toml : option string;
  repo : option Repo;
  files : list string
}.

Inductive git_command : Type :=
| GitAdd (pathspec : string)       (* repo.git.add(pathspec) *)
| GitCommit (m : string)           (* repo.git.commit(m=...) *)
| GitTag (name : string).          (* repo.git.tag(name) *)

(** The [Popen] object as [build_plugin] sees it: what [stdout.read()]
    gives and the value of the [returncode] attribute ([None] in Python is
    [None] here). *)
Record Popen : Type := mkPopen {
  stdout_read : list byte;
  returncode : option Z
}.

(** The records handed to [logging.info], one constructor per message. *)
Inductive log_record : Type :=
| LogRead (plugin_name version : toml)
| LogWrote (ver : string)
| LogCommitted (prior ver : string)
| LogOutput (text : list N)
| LogBuilt (ver : string) (code : option Z)
| LogRelease (ver : string).

(** The functions [run_release] calls, in no particular order. *)
Inductive fn : Type :=
| F_git_check_in_repo
| F_read_info_toml_version
| F_bump_version
| F_update_info_toml_version
| F_git_commit_version
| F_build_plugin
| F_git_commit_new_release.

(** What a run leaves behind, oldest first: the calls [run_release] makes
    with the way each one ends, and the effects on the outside. *)
Inductive event : Type :=
| Enter (f : fn)
| Return (f : fn)
| Raised (f : fn) (e : exn)
| Logged (r : log_record)
| Wrote (content : string)
| GitRan (c : git_command)
| Spawned.

Definition is_effect (ev : event) : bool :=
  match ev with
  | Logged _ | Wrote _ | GitRan _ | Spawned => true
  | _ => false
  end.

Record World : Type := mkWorld {
  disk : Disk;
  history : list event
}.

(** The collaborators outside the script: the TOML parser, the [git]
    program and the build script.  A [git] command and the build may change
    anything in the working directory. *)
Record Externals : Type := mkExternals {
  toml_loads : string -> result (list (string * toml));
  git_run : git_command -> Disk -> result unit * Disk;
  build_sh : Disk -> Popen * Disk
}.

(** ** The monad of the script: state, with exceptions that keep the state *)

Definition M (A : Type) : Type := World -> result A * World.

Definition ret {A : Type} (a : A) : M A := fun w => (Ok a, w).

Definition raise {A : Type} (e : exn) : M A := fun w => (Raise e, w).

Definition bind {A B : Type} (m : M A) (k : A -> M B) : M B :=
  fun w =>
    match m w with
    | (Ok a, w') => k a w'
    | (Raise e, w') => (Raise e, w')
    end.

Definition lift {A : Type} (r : result A) : M A := fun w => (r, w).

Declare Scope script_scope.
Delimit Scope script_scope with script.
Notation "x <- m ;; k" := (bind m (fun x => k))
  (at level 61, m at next level, right associativity) : script_scope.
Notation "m ;; k" := (bind m (fun _ => k))
  (at level 61, right associativity) : script_scope.
Open Scope script_scope.

Definition emit (ev : event) : M unit :=
  fun w => (Ok tt, mkWorld (disk w) (history w ++ [ev])).

(** A call made by [run_release], marked in the history. *)
Definition call {A : Type} (f : fn) (body : M A) : M A :=
  fun w =>
    match body (mkWorld (disk w) (history w ++ [Enter f])) with
    | (Ok a, w') => (Ok a, mkWorld (disk w') (history w' ++ [Return f]))
    | (Raise e, w') => (Raise e, mkWorld (disk w') (history w' ++ [Raised f e]))
    end.

(** *** Primitive operations *)

Definition logging_info (r : log_record) : M unit := emit (Logged r).

(** [Path('info.toml').exists()]. *)
Definition info_toml_exists : M bool :=
  fun w => (Ok (match info_toml (disk w) with Some _ => true | None => false end), w).

(** [Path('info.toml').read_text()]. *)
Definition info_toml_read_text : M string :=
  fun w =>
    match info_toml (disk w) with
    | Some content => (Ok content, w)
    | None => (Raise FileNotFoundError, w)
    end.

(** [Path('info.toml').write_text(content)]. *)
Definition info_toml_write_text (content : string) : M unit :=
  fun w =>
    let d := disk w in
    (Ok tt, mkWorld (mkDisk (Some content) (repo d) (files d))
                    (history w ++ [Wrote content])).

(** [toml.load(Path('info.toml'))]. *)
Definition toml_load (E : Externals) : M (list (string * toml)) :=
  content <- info_toml_read_text ;;
  lift (toml_loads E content).

(** [Repo(os.curdir)]: the constructor raises where there is no
    repository. *)
Definition Repo_curdir : M Repo :=
  fun w =>
    match repo (disk w) with
    | Some r => (Ok r, w)
    | None => (Raise InvalidGitRepositoryError, w)
    end.

(** [repo.git.<command>(...)]. *)
Definition repo_git (E : Externals) (c : git_command) : M unit :=
  fun w =>
    let '(r, d) := git_run E c (disk w) in
    (r, mkWorld d (history w ++ [GitRan c])).

(** [subprocess.Popen(['./build.sh release'], shell=True, stdout=PIPE)]
    followed by reading the pipe to its end. *)
Definition popen_build (E : Externals) : M Popen :=
  fun w =>
    let '(p, d) := build_sh E (disk w) in
    (Ok p, mkWorld d (history w ++ [Spawned])).

(** ** The script *)

Definition read_info_toml_version (E : Externals) : M VersionTuple :=
  present <- info_toml_exists ;;
  if negb present then raise (Exception "no ./info.toml file") else
  info <- toml_load E ;;
  meta <- lift (getitem (TTable info) "meta") ;;
  version <- lift (getitem meta "version") ;;
  meta' <- lift (getitem (TTable info) "meta") ;;
  plugin_name <- lift (getitem meta' "name") ;;
  logging_info (LogRead plugin_name version) ;;
  match version with
  | TString s => lift (version_from_str s)
  | _ => raise AttributeError
  end.

Definition could_not_find (pv_str : string) : string :=
  "Could not find `" ++ pv_str ++ "` in info.toml".

Definition more_than_one (pv_str : string) : string :=
  "More than one occurance of " ++ pv_str ++ " -- bailing".

Definition update_info_toml_version (prior_ver new_ver : VersionTuple) : M unit :=
  present <- info_toml_exists ;;
  if negb present then raise (Exception "no ./info.toml file") else
  info_str <- info_toml_read_text ;;
  let pv_str := version_to_str prior_ver in
  if negb (Py.contains pv_str info_str) then
    raise (Exception (could_not_find pv_str))
  else if negb (Py.find info_str pv_str =? Py.rfind info_str pv_str) then
    raise (Exception (more_than_one pv_str))
  else
    let info_str := Py.replace info_str pv_str (version_to_str new_ver) in
    info_toml_write_text info_str ;;
    logging_info (LogWrote (version_to_str new_ver)).

Definition git_get_repo : M Repo := Repo_curdir.

(** A constructed [Repo] is an object, so [repo is None] is false and the
    test comes down to [repo.bare]. *)
Definition git_check_in_repo : M bool :=
  r <- git_get_repo ;;
  if bare r then ret false else ret true.

Definition git_commit_version (E : Externals) (prior_ver ver : VersionTuple) : M unit :=
  _ <- git_get_repo ;;
  repo_git E (GitAdd "info.toml") ;;
  repo_git E (GitCommit ("Version: " ++ version_to_str ver)) ;;
  repo_git E (GitTag (version_to_str ver)) ;;
  logging_info (LogCommitted (version_to_str prior_ver) (version_to_str ver)).

Definition build_plugin (E : Externals) (ver : VersionTuple) : M unit :=
  proc <- popen_build E ;;
  match decode_utf8 (stdout_read proc) with
  | None => raise UnicodeDecodeError
  | Some text =>
      logging_info (LogOutput text) ;;
      logging_info (LogBuilt (version_to_str ver) (returncode proc))
  end.

Definition git_commit_new_release (E : Externals) (ver : VersionTuple) : M unit :=
  _ <- git_get_repo ;;
  repo_git E (GitAdd "./*.op") ;;
  repo_git E (GitCommit ("Release: " ++ version_to_str ver)) ;;
  logging_info (LogRelease (version_to_str ver)).

Definition run_release (E : Externals) (bump_level : BumpLevel) : M unit :=
  in_repo <- call F_git_check_in_repo git_check_in_repo ;;
  if negb in_repo then raise (Exception "not in a git repo!") else
  prior_ver <- call F_read_info_toml_version (read_info_toml_version E) ;;
  ver <- call F_bump_version (lift (bump_version prior_ver bump_level)) ;;
  call F_update_info_toml_version (update_info_toml_version prior_ver ver) ;;
  call F_git_commit_version (git_commit_version E prior_ver ver) ;;
  call F_build_plugin (build_plugin E ver) ;;
  call F_git_commit_new_release (git_commit_new_release E ver).

(** The world after a successful [update_info_toml_version]: the manifest
    holds [content], the write and the log record are in the history. *)
Definition written (w : World) (content : string) (new_ver : VersionTuple) : World :=
  mkWorld (mkDisk (Some content) (repo (disk w)) (files (disk w)))
          ((history w ++ [Wrote content]) ++ [Logged (LogWrote (version_to_str new_ver))]).

(** ** The order of a release *)

Definition release_order : list fn :=
  [ F_git_check_in_repo; F_read_info_toml_version; F_bump_version;
    F_update_info_toml_version; F_git_commit_version; F_build_plugin;
    F_git_commit_new_release ].

(** [sequenced may_raise fs tr err]: the history [tr] runs the calls [fs]
    from the left, each at most once; a call that returns is followed by
    the next one, a call that raises [e] (which [may_raise] has to allow)
    ends the history ([err = Some e]); between the entry and the end of a
    call there are only effects. *)
Inductive sequenced (may_raise : fn -> exn -> Prop)
  : list fn -> list event -> option exn -> Prop :=
| sequenced_done : sequenced may_raise [] [] None
| sequenced_return f fs effects tr err :
    forallb is_effect effects = true ->
    sequenced may_raise fs tr err ->
    sequenced may_raise (f :: fs) (Enter f :: effects ++ Return f :: tr) err
| sequenced_raise f fs effects e :
    forallb is_effect effects = true ->
    may_raise f e ->
    sequenced may_raise (f :: fs) (Enter f :: effects ++ [Raised f e]) (Some e).

Definition anything (f : fn) (e : exn) : Prop := True.

Definition error_of {A : Type} (r : result A) : option exn :=
  match r with
  | Ok _ => None
  | Raise e => Some e
  end.

(** A computation that adds only effects to the history. *)
Definition appends_effects {A : Type} (m : M A) : Prop :=
  forall w, exists effects,
    forallb is_effect effects = true /\
    history (snd (m w)) = (history w ++ effects)%list.

(** A computation that raises nothing but what [P] allows. *)
Definition raises_only {A : Type} (P : exn -> Prop) (m : M A) : Prop :=
  forall w e w', m w = (Raise e, w') -> P e.

(** A computation whose part of the history is [sequenced] over [fs]. *)
Definition runs {A : Type} (may_raise : fn -> exn -> Prop) (fs : list fn)
    (m : M A) : Prop :=
  forall w, exists tr,
    history (snd (m w)) = (history w ++ tr)%list /\
    sequenced may_raise fs tr (error_of (fst (m w))).

(** The failures of the specification, as the exceptions of the script.
    [NotARepository] is the refusal of [run_release] or, where [Repo]
    finds no repository at all, the exception of its constructor. *)
Definition MissingManifest : exn := Exception "no ./info.toml file".

Definition VersionNotFound (pv_str : string) : exn :=
  Exception (could_not_find pv_str).

Definition AmbiguousVersion (pv_str : string) : exn :=
  Exception (more_than_one pv_str).

Definition NotARepository (e : exn) : bool :=
  match e with
  | Exception msg => String.eqb msg "not in a git repo!"
  | InvalidGitRepositoryError => true
  | _ => false
  end.

(** ** A small world for the examples *)

Module Demo.

Definition dquote : string := String (ascii_of_nat 34) EmptyString.
Definition newline : string := String (ascii_of_nat 10) EmptyString.

(** A manifest with both entries, and one without the name. *)
Definition manifest (name version : string) : string :=
  "[meta]" ++ newline
  ++ "name = " ++ dquote ++ name ++ dquote ++ newline
  ++ "version = " ++ dquote ++ version ++ dquote ++ newline.

Definition nameless (version : string) : string :=
  "[meta]" ++ newline
  ++ "version = " ++ dquote ++ version ++ dquote ++ newline.

(** A stand-in for the parser: it knows the manifests of the examples. *)
Definition parser (content : string) : result (list (string * toml)) :=
  if String.eqb content (manifest "plugin" "0.1.0") then
    Ok [("meta", TTable [("name", TString "plugin"); ("version", TString "0.1.0")])]
  else if String.eqb content (nameless "0.1.0") then
    Ok [("meta", TTable [("version", TString "0.1.0")])]
  else Raise TomlDecodeError.

Definition endswith (s suffix : string) : bool :=
  String.eqb (Py.drop (String.length s - String.length suffix) s) suffix.

Definition with_repo (d : Disk) (r : Repo) : Disk :=
  mkDisk (info_toml d) (Some r) (files d).

(** A stand-in for [git]: [add] needs a file to stage, [commit] something
    staged, [tag] a fresh name. *)
Definition git (c : git_command) (d : Disk) : result unit * Disk :=
  match repo d with
  | None => (Raise (GitCommandError 128), d)
  | Some r =>
      match c with
      | GitAdd pathspec =>
          let matched :=
            if String.eqb pathspec "info.toml" then
              match info_toml d with Some _ => ["info.toml"] | None => [] end
            else filter (fun f => endswith f ".op") (files d) in
          match matched with
          | [] => (Raise (GitCommandError 128), d)
          | _ => (Ok tt, with_repo d (mkRepo (bare r) (index r ++ matched)
                                            (commits r) (tags r)))
          end
      | GitCommit m =>
          match index r with
          | [] => (Raise (GitCommandError 1), d)
          | _ => (Ok tt, with_repo d (mkRepo (bare r) [] (commits r ++ [m]) (tags r)))
          end
      | GitTag name =>
          if existsb (String.eqb name) (tags r) then (Raise (GitCommandError 128), d)
          else (Ok tt, with_repo d (mkRepo (bare r) (index r) (commits r)
                                           (tags r ++ [name])))
      end
  end.

(** A stand-in for the build: it leaves [plugin.op], prints [out] and ends
    with the return code [code]. *)
Definition build (out : list byte) (code : option Z) (d : Disk) : Popen * Disk :=
  (mkPopen out code, mkDisk (info_toml d) (repo d) ("plugin.op" :: files d)).

Definition done : list byte := [x64; x6f; x6e; x65; x0a]%byte.

Definition externals (out : list byte) (code : option Z) : Externals :=
  mkExternals parser git (build out code).

(** A fresh repository: a working tree, nothing committed yet. *)
Definition fresh_repo : Repo := mkRepo false [] [] [].

Definition bare_repo : Repo := mkRepo true [] ["Version: 0.1.0"] ["0.1.0"].

Definition world (content : option string) (r : option Repo) : World :=
  mkWorld (mkDisk content r []) [].

End Demo.

(** ** The release as the state machine of the specification *)

(** The states of the orchestrator: [Start], then one state after each
    step, with what the step has produced, then [Done]; [Aborted] where a
    step has failed.  [Checked], after the check of the repository, is the
    only state the specification does not name. *)
Inductive phase : Type :=
| Start
| Checked
| VersionRead (prior_ver : VersionTuple)
| VersionBumped (prior_ver ver : VersionTuple)
| ManifestWritten (prior_ver ver : VersionTuple)
| VersionCommitted (ver : VersionTuple)
| Built (ver : VersionTuple)
| ArtifactsCommitted
| Done
| Aborted (e : exn).

(** One step: the call of [step], then the state [next] gives for what it
    returns, or [Aborted] with what it raises. *)
Definition advance {A : Type} (f : fn) (step : M A) (next : A -> phase)
  : World -> phase * World :=
  fun w =>
    match call f step w with
    | (Ok a, w') => (next a, w')
    | (Raise e, w') => (Aborted e, w')
    end.

(** The transition out of each state: the one step that belongs to it;
    [Done] and [Aborted] are final. *)
Definition transition (E : Externals) (bump_level : BumpLevel) (p : phase)
  : World -> phase * World :=
  match p with
  | Start =>
      advance F_git_check_in_repo git_check_in_repo
        (fun in_repo =>
           if in_repo then Checked else Aborted (Exception "not in a git repo!"))
  | Checked =>
      advance F_read_info_toml_version (read_info_toml_version E) VersionRead
  | VersionRead prior_ver =>
      advance F_bump_version (lift (bump_version prior_ver bump_level))
        (VersionBumped prior_ver)
  | VersionBumped prior_ver ver =>
      advance F_update_info_toml_version (update_info_toml_version prior_ver ver)
        (fun _ => ManifestWritten prior_ver ver)
  | ManifestWritten prior_ver ver =>
      advance F_git_commit_version (git_commit_version E prior_ver ver)
        (fun _ => VersionCommitted ver)
  | VersionCommitted ver =>
      advance F_build_plugin (build_plugin E ver) (fun _ => Built ver)
  | Built ver =>
      advance F_git_commit_new_release (git_commit_new_release E ver)
        (fun _ => ArtifactsCommitted)
  | ArtifactsCommitted => fun w => (Done, w)
  | Done => fun w => (Done, w)
  | Aborted e => fun w => (Aborted e, w)
  end.

(** [n] transitions in a row. *)
Fixpoint machine (n : nat) (E : Externals) (bump_level : BumpLevel) (p : phase)
  (w : World) : phase * World :=
  match n with
  | O => (p, w)
  | S k =>
      let '(p', w') := transition E bump_level p w in
      machine k E bump_level p' w'
  end.

(** What the invoker sees of a final state. *)
Definition release_outcome (end_ : phase * World) : result unit * World :=
  match fst end_ with
  | Aborted e => (Raise e, snd end_)
  | _ => (Ok tt, snd end_)
  end.


(** ** The command line *)

(** The leaf commands of the group [release]: each takes no argument and
    runs one release at its own level. *)
Module Cli.

Definition patch (E : Externals) : M unit := run_release E "patch".

Definition minor (E : Externals) : M unit := run_release E "minor".

Definition major (E : Externals) : M unit := run_release E "major".

End Cli.

(** ** Notions used to state what the script does *)

(** The order of Python on tuples of integers: from the left. *)
Definition version_lt (a b : VersionTuple) : Prop :=
  let '(a1, a2, a3) := a in
  let '(b1, b2, b3) := b in
  a1 < b1 \/ (a1 = b1 /\ (a2 < b2 \/ (a2 = b2 /\ a3 < b3))).

(** A version as the specification has it: no negative component. *)
Definition valid_version (v : VersionTuple) : Prop :=
  let '(a1, a2, a3) := v in 0 <= a1 /\ 0 <= a2 /\ 0 <= a3.

(** How often the character [c] stands in [s]. *)
Fixpoint count_char (c : ascii) (s : string) : nat :=
  match s with
  | EmptyString => O
  | String x r => if Ascii.eqb x c then S (count_char c r) else count_char c r
  end.

Definition digit_or_dot (c : ascii) : bool :=
  Py.is_digit c || Ascii.eqb c ".".

Definition is_ascii (b : byte) : bool := (Byte.to_N b <? 128)%N.

(** The [git] commands of the two commits, in the order of the script. *)
Definition version_commands (ver : VersionTuple) : list git_command :=
  [ GitAdd "info.toml";
    GitCommit ("Version: " ++ version_to_str ver);
    GitTag (version_to_str ver) ].

Definition release_commands (ver : VersionTuple) : list git_command :=
  [ GitAdd "./*.op"; GitCommit ("Release: " ++ version_to_str ver) ].

(** The events that change something outside the script. *)
Definition is_mutation (ev : event) : bool :=
  match ev with
  | Wrote _ | GitRan _ | Spawned => true
  | _ => false
  end.

(** Collaborators that leave the manifest alone: no [git] command and no
    build rewrites [info.toml]. *)
Definition leaves_manifest (E : Externals) : Prop :=
  (forall c d, info_toml (snd (git_run E c d)) = info_toml d) /\
  (forall d, info_toml (snd (build_sh E d)) = info_toml d).

(** A computation that neither changes nor writes the manifest. *)
Definition keeps_manifest {A : Type} (m : M A) : Prop :=
  forall w,
    info_toml (disk (snd (m w))) = info_toml (disk w) /\
    exists tr,
      history (snd (m w)) = (history w ++ tr)%list /\
      forall content, ~ In (Wrote content) tr.

(** * Proofs *)

(** ** Strings and integers *)

Section StringFacts.

Local Open Scope nat_scope.

Lemma length_app (a b : string) :
  String.length (a ++ b) = String.length a + String.length b.
Proof. induction a as [|c a IH]; simpl; [reflexivity | now rewrite IH]. Qed.

Lemma app_assoc_str (a b c : string) : ((a ++ b) ++ c = a ++ (b ++ c))%string.
Proof. induction a as [|x a IH]; simpl; [reflexivity | now rewrite IH]. Qed.

Lemma app_empty_r (a : string) : (a ++ EmptyString)%string = a.
Proof. induction a as [|x a IH]; simpl; [reflexivity | now rewrite IH]. Qed.

Lemma all_chars_app p (a b : string) :
  Py.all_chars p (a ++ b) = Py.all_chars p a && Py.all_chars p b.
Proof.
  induction a as [|x a IH]; simpl; [reflexivity|].
  now rewrite IH, andb_assoc.
Qed.

Lemma all_chars_weaken (p q : ascii -> bool) (s : string) :
  (forall c, p c = true -> q c = true) ->
  Py.all_chars p s = true -> Py.all_chars q s = true.
Proof.
  intros Hpq. induction s as [|c s IH]; simpl; [reflexivity|].
  rewrite !andb_true_iff. intros [Hc Hs]. split; auto.
Qed.

Lemma digit_range c :
  Py.is_digit c = true -> 48 <= nat_of_ascii c <= 57.
Proof.
  unfold Py.is_digit. rewrite andb_true_iff, !Nat.leb_le. tauto.
Qed.

Lemma digit_not_space c : Py.is_digit c = true -> Py.is_space c = false.
Proof.
  intros H%digit_range. unfold Py.is_space.
  rewrite !orb_false_iff, andb_false_iff, !Nat.leb_gt, !Nat.eqb_neq. lia.
Qed.

Lemma digit_not c (x : ascii) :
  Py.is_digit c = true -> Py.is_digit x = false -> Ascii.eqb c x = false.
Proof.
  intros Hc Hx. destruct (Ascii.eqb_spec c x) as [->|]; [congruence | reflexivity].
Qed.

Lemma lstrip_id c r : Py.is_space c = false -> Py.lstrip (String c r) = String c r.
Proof. intros H. simpl. now rewrite H. Qed.

Lemma rstrip_id s :
  Py.all_chars (fun c => negb (Py.is_space c)) s = true -> Py.rstrip s = s.
Proof.
  induction s as [|c r IH]; simpl; [reflexivity|].
  rewrite andb_true_iff, negb_true_iff. intros [Hc Hr].
  rewrite (IH Hr), Hc. now destruct r.
Qed.

Lemma strip_id s :
  Py.all_chars (fun c => negb (Py.is_space c)) s = true -> Py.strip s = s.
Proof.
  intros H. unfold Py.strip. destruct s as [|c r]; [reflexivity|].
  pose proof H as H'. simpl in H'.
  rewrite andb_true_iff, negb_true_iff in H'. destruct H' as [Hc _].
  rewrite (lstrip_id _ _ Hc). now apply rstrip_id.
Qed.

Lemma scan_literal_id s :
  Py.all_chars Py.is_digit s = true ->
  Py.scan_literal true s = Some (s, EmptyString) /\
  (s <> EmptyString -> Py.scan_literal false s = Some (s, EmptyString)).
Proof.
  induction s as [|c r IH]; simpl.
  - intros _. split; [reflexivity | congruence].
  - rewrite andb_true_iff. intros [Hc Hr]. rewrite Hc.
    destruct (IH Hr) as [-> _]. now split.
Qed.

Lemma digits_of_uint d : Py.all_chars Py.is_digit (NilEmpty.string_of_uint d) = true.
Proof. induction d; simpl; auto. Qed.

Lemma string_of_uint_nonempty d :
  d <> Decimal.Nil -> NilEmpty.string_of_uint d <> EmptyString.
Proof. destruct d; simpl; congruence. Qed.

(** [int] reads back a run of digits within the limit, with or without a
    minus sign. *)
Lemma int_digits d :
  d <> Decimal.Nil ->
  (Z.of_nat (String.length (NilEmpty.string_of_uint d)) <= Py.max_str_digits)%Z ->
  Py.int (NilEmpty.string_of_uint d) = Ok (Z.of_uint d) /\
  Py.int (String "-" (NilEmpty.string_of_uint d)) = Ok (- Z.of_uint d)%Z.
Proof.
  intros Hd Hlen.
  pose proof (digits_of_uint d) as Hdig.
  pose proof (string_of_uint_nonempty d Hd) as Hne.
  assert (Hsp : Py.all_chars (fun c => negb (Py.is_space c))
                  (NilEmpty.string_of_uint d) = true).
  { revert Hdig. apply all_chars_weaken.
    intros c Hc. now rewrite (digit_not_space c Hc). }
  destruct (scan_literal_id _ Hdig) as [_ Hlit]. specialize (Hlit Hne).
  apply Z.ltb_ge in Hlen.
  split; unfold Py.int.
  - rewrite (strip_id _ Hsp).
    destruct (NilEmpty.string_of_uint d) as [|c r] eqn:E; [congruence|].
    pose proof Hdig as Hc. cbn [Py.all_chars] in Hc.
    rewrite andb_true_iff in Hc. destruct Hc as [Hc _].
    assert (Hm : Ascii.eqb c "-" = false) by (now apply digit_not).
    assert (Hp : Ascii.eqb c "+" = false) by (now apply digit_not).
    replace (match String c r with
             | String "-" r0 => (true, r0)
             | String "+" r0 => (false, r0)
             | _ => (false, String c r)
             end) with (false, String c r).
    + rewrite Hlit, Hlen, <- E, NilEmpty.usu. reflexivity.
    + destruct c as [[] [] [] [] [] [] [] []]; try reflexivity;
        simpl in Hm, Hp; discriminate.
  - rewrite strip_id by (cbn [Py.all_chars]; now rewrite Hsp).
    rewrite Hlit, Hlen, NilEmpty.usu. reflexivity.
Qed.

Lemma str_positive p :
  Py.str (Zpos p) = NilEmpty.string_of_uint (Pos.to_uint p) /\
  Py.str (Zneg p) = String "-" (NilEmpty.string_of_uint (Pos.to_uint p)).
Proof.
  pose proof (DecimalPos.Unsigned.to_uint_nonnil p) as Hp.
  unfold Py.str, Z.to_int, NilZero.string_of_int, NilZero.string_of_uint.
  destruct (Pos.to_uint p); try congruence; now split.
Qed.

(** [int(str(n)) == n] for an integer within the limit. *)
Lemma int_str (n : Z) :
  (Z.of_nat (Py.digits n) <= Py.max_str_digits)%Z -> Py.int (Py.str n) = Ok n.
Proof.
  unfold Py.digits. destruct n as [|p|p]; [reflexivity| |]; cbn [Z.abs];
    destruct (str_positive p) as [Hpos Hneg]; rewrite Hpos; intros Hlen;
    pose proof (DecimalPos.Unsigned.to_uint_nonnil p) as Hp;
    destruct (int_digits _ Hp Hlen) as [H1 H2].
  - rewrite H1. unfold Z.of_uint. now rewrite DecimalPos.Unsigned.of_to.
  - rewrite Hneg, H2. unfold Z.of_uint. now rewrite DecimalPos.Unsigned.of_to.
Qed.

(** The decimal string tells the integers apart. *)
Lemma str_inj (a b : Z) : Py.str a = Py.str b -> a = b.
Proof.
  unfold Py.str. intros H. apply DecimalZ.to_int_inj.
  assert (Hnn : forall n, Z.to_int n <> Decimal.Pos Decimal.Nil /\
                         Z.to_int n <> Decimal.Neg Decimal.Nil).
  { intros [|p|p]; simpl; split; try discriminate;
      intros [= E]; now apply (DecimalPos.Unsigned.to_uint_nonnil p). }
  destruct (Hnn a) as [Ha1 Ha2]. destruct (Hnn b) as [Hb1 Hb2].
  pose proof (NilZero.isi _ Ha1 Ha2) as Ia.
  pose proof (NilZero.isi _ Hb1 Hb2) as Ib.
  rewrite H in Ia. congruence.
Qed.

Lemma str_no_dot (n : Z) : Py.all_chars not_dot (Py.str n) = true.
Proof.
  assert (Hu : forall d, Py.all_chars not_dot (NilEmpty.string_of_uint d) = true).
  { intros d. apply all_chars_weaken with (p := Py.is_digit);
      [|apply digits_of_uint].
    intros c Hc. unfold not_dot. now rewrite (digit_not c "." Hc). }
  assert (Hz : forall d, Py.all_chars not_dot (NilZero.string_of_uint d) = true).
  { intros d. destruct d; try apply (Hu (_ d)); reflexivity. }
  unfold Py.str. destruct (Z.to_int n); simpl; auto.
Qed.

Lemma split_no_sep sep s :
  Py.all_chars (fun c => negb (Ascii.eqb c sep)) s = true -> Py.split sep s = [s].
Proof.
  induction s as [|c r IH]; simpl; [reflexivity|].
  rewrite andb_true_iff, negb_true_iff. intros [-> Hr]. now rewrite (IH Hr).
Qed.

Lemma split_app_sep sep a r :
  Py.all_chars (fun c => negb (Ascii.eqb c sep)) a = true ->
  Py.split sep (a ++ String sep r) = a :: Py.split sep r.
Proof.
  induction a as [|c a IH]; simpl.
  - intros _. now rewrite Ascii.eqb_refl.
  - rewrite andb_true_iff, negb_true_iff. intros [-> Ha]. now rewrite (IH Ha).
Qed.

Lemma version_to_str_app a b c :
  version_to_str (a, b, c)
  = (Py.str a ++ String "." (Py.str b ++ String "." (Py.str c)))%string.
Proof. reflexivity. Qed.

Lemma version_to_str_nonempty v : version_to_str v <> EmptyString.
Proof.
  destruct v as [[a b] c]. rewrite version_to_str_app.
  destruct (Py.str a); simpl; congruence.
Qed.

Lemma version_split a b c :
  Py.split "." (version_to_str (a, b, c)) = [Py.str a; Py.str b; Py.str c].
Proof.
  rewrite version_to_str_app.
  rewrite (split_app_sep "." _ _ (str_no_dot a)).
  rewrite (split_app_sep "." _ _ (str_no_dot b)).
  now rewrite (split_no_sep "." _ (str_no_dot c)).
Qed.

Lemma version_round_trip_any a b c :
  (Z.of_nat (Py.digits a) <= Py.max_str_digits)%Z ->
  (Z.of_nat (Py.digits b) <= Py.max_str_digits)%Z ->
  (Z.of_nat (Py.digits c) <= Py.max_str_digits)%Z ->
  version_from_str (version_to_str (a, b, c)) = Ok (a, b, c).
Proof.
  intros Ha Hb Hc. unfold version_from_str. rewrite version_split.
  now rewrite (int_str a Ha), (int_str b Hb), (int_str c Hc).
Qed.

Lemma version_to_str_run_ok a b c :
  (Z.of_nat (Py.digits a) <= Py.max_str_digits)%Z ->
  (Z.of_nat (Py.digits b) <= Py.max_str_digits)%Z ->
  (Z.of_nat (Py.digits c) <= Py.max_str_digits)%Z ->
  version_to_str_run (a, b, c) = Ok (version_to_str (a, b, c)).
Proof.
  intros Ha%Z.ltb_ge Hb%Z.ltb_ge Hc%Z.ltb_ge.
  unfold version_to_str_run, Py.str_run. now rewrite Ha, Hb, Hc.
Qed.

End StringFacts.

(** ** Searching and replacing *)

Section SearchFacts.

Local Open Scope nat_scope.

Variable sub : string.

Lemma drop_0 s : Py.drop 0 s = s.
Proof. now destruct s. Qed.

Lemma occurrences_from_ge s : forall k j,
  In j (Py.occurrences_from k sub s) -> k <= j.
Proof.
  induction s as [|c r IH]; intros k j; cbn [Py.occurrences_from].
  - destruct (Py.startswith EmptyString sub); simpl; [lia | tauto].
  - destruct (Py.startswith (String c r) sub); simpl; intros H.
    + destruct H as [<-|H]; [lia | apply IH in H; lia].
    + apply IH in H; lia.
Qed.

(** The index [k + i] is listed exactly when [sub] starts at [s[i:]]. *)
Lemma occurrences_from_spec s : forall k i,
  In (k + i) (Py.occurrences_from k sub s) <->
  i <= String.length s /\ Py.startswith (Py.drop i s) sub = true.
Proof.
  induction s as [|c r IH]; intros k i.
  - cbn [Py.occurrences_from String.length].
    destruct i as [|i]; cbn [Py.drop].
    + destruct (Py.startswith EmptyString sub); simpl;
        intuition (try lia; try congruence).
    + destruct (Py.startswith EmptyString sub); simpl; intuition lia.
  - cbn [Py.occurrences_from String.length].
    destruct i as [|i].
    + rewrite Nat.add_0_r, drop_0.
      destruct (Py.startswith (String c r) sub); simpl.
      * intuition lia.
      * split; [intros H%occurrences_from_ge; lia | intros [_ H]; discriminate].
    + cbn [Py.drop].
      replace (k + S i) with (S k + i) by lia.
      specialize (IH (S k) i).
      destruct (Py.startswith (String c r) sub); simpl; rewrite IH.
      * intuition lia.
      * intuition lia.
Qed.

Lemma occurrences_spec s j :
  In j (Py.occurrences sub s) <->
  j <= String.length s /\ Py.startswith (Py.drop j s) sub = true.
Proof. apply (occurrences_from_spec s 0 j). Qed.

(** The indices are listed in strictly ascending order. *)
Lemma occurrences_from_head s : forall k j rest,
  Py.occurrences_from k sub s = j :: rest -> Forall (fun x => j < x) rest.
Proof.
  induction s as [|c r IH]; intros k j rest; cbn [Py.occurrences_from].
  - destruct (Py.startswith EmptyString sub); intros [= <- <-]. constructor.
  - destruct (Py.startswith (String c r) sub).
    + intros [= <- <-]. apply Forall_forall.
      intros x Hx%occurrences_from_ge. lia.
    + apply IH.
Qed.

Lemma find_from_occurrences s : forall k,
  Py.find_from (Z.of_nat k) sub s
  = match Py.occurrences_from k sub s with
    | [] => (-1)%Z
    | j :: _ => Z.of_nat j
    end.
Proof.
  induction s as [|c r IH]; intros k; cbn [Py.occurrences_from Py.find_from].
  - now destruct (Py.startswith EmptyString sub).
  - destruct (Py.startswith (String c r) sub); [reflexivity|].
    replace (Z.of_nat k + 1)%Z with (Z.of_nat (S k)) by lia. apply IH.
Qed.

Lemma last_cons (x : nat) l d : last (x :: l) d = last l x.
Proof.
  revert x d. induction l as [|a l IH]; intros x d; [reflexivity|].
  change (last (x :: a :: l) d) with (last (a :: l) d).
  now rewrite (IH a d), (IH a x).
Qed.

Lemma last_in (j : nat) rest : In (last rest j) (j :: rest).
Proof.
  revert j. induction rest as [|x rest IH]; intros j; [now left|].
  right. rewrite last_cons. apply IH.
Qed.

Lemma rfind_from_occurrences s : forall k,
  Py.rfind_from (Z.of_nat k) sub s
  = match Py.occurrences_from k sub s with
    | [] => (-1)%Z
    | j :: rest => Z.of_nat (last rest j)
    end.
Proof.
  induction s as [|c r IH]; intros k; cbn [Py.occurrences_from Py.rfind_from].
  - now destruct (Py.startswith EmptyString sub).
  - replace (Z.of_nat k + 1)%Z with (Z.of_nat (S k)) by lia. rewrite IH.
    destruct (Py.occurrences_from (S k) sub r) as [|j rest] eqn:E.
    + now destruct (Py.startswith (String c r) sub).
    + replace (Z.of_nat (last rest j) =? -1)%Z with false
        by (symmetry; apply Z.eqb_neq; lia).
      destruct (Py.startswith (String c r) sub); [|reflexivity].
      now rewrite last_cons.
Qed.

Lemma contains_occurrences s : forall k,
  Py.contains sub s
  = match Py.occurrences_from k sub s with
    | [] => false
    | _ :: _ => true
    end.
Proof.
  induction s as [|c r IH]; intros k; cbn [Py.occurrences_from Py.contains].
  - destruct (Py.startswith EmptyString sub); reflexivity.
  - destruct (Py.startswith (String c r) sub); [reflexivity|]. simpl. apply IH.
Qed.

(** [find] and [rfind] differ exactly when there are two occurrences. *)
Lemma find_rfind_occurrences s :
  Py.find s sub <> Py.rfind s sub <-> 2 <= List.length (Py.occurrences sub s).
Proof.
  unfold Py.find, Py.rfind, Py.occurrences.
  change 0%Z with (Z.of_nat 0).
  rewrite (find_from_occurrences s 0), (rfind_from_occurrences s 0).
  destruct (Py.occurrences_from 0 sub s) as [|i [|j rest]] eqn:E.
  - simpl. split; [congruence | lia].
  - simpl. split; [congruence | lia].
  - split; [intros _; simpl; lia | intros _].
    apply occurrences_from_head in E.
    rewrite Forall_forall in E. specialize (E _ (last_in j rest)).
    rewrite last_cons. lia.
Qed.

End SearchFacts.

Section ReplaceFacts.

Local Open Scope nat_scope.

Variables old new : string.

Lemma replace_go_none s : forall k n,
  Py.occurrences_from k old s = [] ->
  Py.replace_go old new n s = Py.drop n s.
Proof.
  induction s as [|c r IH]; intros k n; cbn [Py.occurrences_from Py.replace_go].
  - intros _. now destruct n.
  - destruct (Py.startswith (String c r) old); [discriminate|].
    intros E. destruct n as [|n]; cbn [Py.drop].
    + now rewrite (IH (S k) 0 E), drop_0.
    + apply (IH (S k) n E).
Qed.

(** With one occurrence, [replace] swaps it and keeps the rest. *)
Lemma replace_go_once s : forall k i,
  old <> EmptyString ->
  Py.occurrences_from k old s = [k + i] ->
  Py.replace_go old new 0 s
  = (Py.take i s ++ new ++ Py.drop (i + String.length old) s)%string.
Proof.
  induction s as [|c r IH]; intros k i Hold;
    cbn [Py.occurrences_from Py.replace_go].
  - destruct old; [congruence | discriminate].
  - destruct (Py.startswith (String c r) old) eqn:Hs.
    + intros [= Hi Hrest]. assert (i = 0) as -> by lia.
      cbn [Py.take]. simpl append at 2.
      rewrite (replace_go_none r (S k) _ Hrest).
      destruct old as [|x old']; [congruence|]. reflexivity.
    + intros E.
      assert (Hin : In (k + i) (Py.occurrences_from (S k) old r))
        by (rewrite E; now left).
      apply occurrences_from_ge in Hin.
      destruct i as [|i]; [lia|].
      replace (k + S i) with (S k + i) in E by lia.
      rewrite (IH (S k) i Hold E). reflexivity.
Qed.

Lemma replace_once s i :
  old <> EmptyString ->
  Py.occurrences old s = [i] ->
  Py.replace s old new
  = (Py.take i s ++ new ++ Py.drop (i + String.length old) s)%string.
Proof.
  intros Hold E. unfold Py.replace.
  rewrite <- (replace_go_once s 0 i Hold E).
  destruct old; [congruence | reflexivity].
Qed.

End ReplaceFacts.

(** ** Slices *)

Section SliceFacts.

Local Open Scope nat_scope.

Lemma take_drop i s : (Py.take i s ++ Py.drop i s)%string = s.
Proof.
  revert s. induction i as [|i IH]; intros [|c r]; simpl; try reflexivity.
  now rewrite IH.
Qed.

Lemma length_take i s : i <= String.length s -> String.length (Py.take i s) = i.
Proof.
  revert s. induction i as [|i IH]; intros [|c r]; simpl; try lia.
  intros H. rewrite IH; lia.
Qed.

Lemma length_drop i s : String.length (Py.drop i s) = String.length s - i.
Proof.
  revert s. induction i as [|i IH]; intros [|c r]; simpl; try lia. apply IH.
Qed.

Lemma drop_app_le i a b :
  i <= String.length a -> Py.drop i (a ++ b) = (Py.drop i a ++ b)%string.
Proof.
  revert a. induction i as [|i IH]; intros a H; [now rewrite !drop_0|].
  destruct a as [|c r]; simpl in *; [lia | apply IH; lia].
Qed.

Lemma drop_app_ge i a b :
  Py.drop (String.length a + i) (a ++ b) = Py.drop i b.
Proof. induction a as [|c r IH]; simpl; [reflexivity | apply IH]. Qed.

Lemma drop_drop i j s : Py.drop i (Py.drop j s) = Py.drop (j + i) s.
Proof.
  revert s. induction j as [|j IH]; intros s; [now rewrite drop_0|].
  destruct s as [|c r]; simpl; [now destruct i | apply IH].
Qed.

(** [startswith] looks at no more than [length sub] characters. *)
Lemma startswith_app sub a b :
  String.length sub <= String.length a ->
  Py.startswith (a ++ b) sub = Py.startswith a sub.
Proof.
  revert a. induction sub as [|x sub IH]; intros a H.
  - destruct a, b; reflexivity.
  - destruct a as [|c r]; simpl in *; [lia|].
    rewrite IH by lia. reflexivity.
Qed.

Lemma startswith_self_app sub b : Py.startswith (sub ++ b) sub = true.
Proof.
  induction sub as [|x sub IH]; simpl; [now destruct b|].
  now rewrite Ascii.eqb_refl.
Qed.

Lemma startswith_length s sub :
  Py.startswith s sub = true -> String.length sub <= String.length s.
Proof.
  revert s. induction sub as [|x sub IH]; intros s H.
  - simpl. lia.
  - destruct s as [|c r]; simpl in *; [discriminate|].
    rewrite andb_true_iff in H. destruct H as [_ H%IH]. lia.
Qed.

End SliceFacts.

(** ** One occurrence, replaced *)

Section OnceFacts.

Local Open Scope nat_scope.

Lemma startswith_split s sub :
  Py.startswith s sub = true -> s = (sub ++ Py.drop (String.length sub) s)%string.
Proof.
  revert s. induction sub as [|x sub IH]; intros s H.
  - reflexivity.
  - destruct s as [|c r]; simpl in *; [discriminate|].
    rewrite andb_true_iff in H. destruct H as [Hx Hr].
    apply Ascii.eqb_eq in Hx. subst c. f_equal. now apply IH.
Qed.

Variables (pv content : string) (i : nat).
Hypothesis pv_nonempty : pv <> EmptyString.
Hypothesis once : Py.occurrences pv content = [i].


Lemma once_here :
  i <= String.length content /\ Py.startswith (Py.drop i content) pv = true.
Proof. apply occurrences_spec. rewrite once. now left. Qed.

Lemma once_only j :
  j <= String.length content -> Py.startswith (Py.drop j content) pv = true -> j = i.
Proof.
  intros Hj Hs.
  assert (H : In j (Py.occurrences pv content)) by (now apply occurrences_spec).
  rewrite once in H. destruct H as [H|[]]. now symmetry.
Qed.

Lemma once_split : content = swapped pv content i pv.
Proof.
  destruct once_here as [_ Hs]. apply startswith_split in Hs.
  rewrite drop_drop in Hs. unfold swapped.
  rewrite <- Hs. symmetry. apply take_drop.
Qed.

Lemma length_before : String.length (Py.take i content) = i.
Proof. apply length_take. apply once_here. Qed.

Lemma pv_length_pos : 0 < String.length pv.
Proof. destruct pv; [congruence | simpl; lia]. Qed.

(** After the swap the new string stands where the old one stood. *)
Lemma swapped_here nv :
  In i (Py.occurrences nv (swapped pv content i nv)).
Proof.
  apply occurrences_spec. unfold swapped. split.
  - rewrite length_app, length_before. lia.
  - rewrite <- length_before at 1.
    rewrite <- (Nat.add_0_r (String.length (Py.take i content))), drop_app_ge, drop_0.
    apply startswith_self_app.
Qed.

(** An occurrence of the old string that is left over overlaps the new
    string: the text before and the text after hold none. *)
Lemma remaining_overlaps nv j :
  In j (Py.occurrences pv (swapped pv content i nv)) ->
  i < j + String.length pv /\ j < i + String.length nv.
Proof.
  intros [Hj Hs]%occurrences_spec.
  pose proof pv_length_pos as Hpos. pose proof length_before as Hb.
  pose proof once_split as Hc. unfold swapped in Hj, Hs, Hc.
  set (before := Py.take i content) in *.
  set (after := Py.drop (i + String.length pv) content) in *.
  split.
  - destruct (Nat.lt_ge_cases i (j + String.length pv)) as [|Hle]; [assumption|].
    exfalso.
    rewrite drop_app_le in Hs by lia.
    rewrite startswith_app in Hs by (rewrite length_drop; lia).
    assert (j = i); [|lia].
    apply once_only.
    + rewrite Hc, length_app. lia.
    + rewrite Hc, drop_app_le by lia.
      rewrite startswith_app by (rewrite length_drop; lia). exact Hs.
  - destruct (Nat.lt_ge_cases j (i + String.length nv)) as [|Hge]; [assumption|].
    exfalso.
    set (m := j - (i + String.length nv)).
    assert (Hm : Py.drop j (before ++ nv ++ after) = Py.drop m after).
    { replace j with (String.length before + (String.length nv + m)) by lia.
      now rewrite !drop_app_ge. }
    rewrite Hm in Hs.
    pose proof (startswith_length _ _ Hs) as Hlen. rewrite length_drop in Hlen.
    assert (i + String.length pv + m = i); [|lia].
    apply once_only.
    + rewrite Hc, !length_app. lia.
    + rewrite Hc.
      replace (i + String.length pv + m)
        with (String.length before + (String.length pv + m)) by lia.
      now rewrite !drop_app_ge.
Qed.

End OnceFacts.

(** The bump from 0.1.0 to 0.1.1 leaves no 0.1.0 behind: a left-over
    occurrence would overlap the new string, and of the nine offsets at
    which it could, eight disagree on a character and the ninth was an
    occurrence before the swap. *)
Lemma swap_010_leaves_none content i :
  Py.occurrences "0.1.0" content = [i] ->
  Py.occurrences "0.1.0" (swapped "0.1.0" content i "0.1.1") = [].
Proof.
  intros Honce.
  destruct (Py.occurrences "0.1.0" (swapped "0.1.0" content i "0.1.1"))
    as [|j rest] eqn:E; [reflexivity|]. exfalso.
  assert (Hne : "0.1.0" <> EmptyString) by discriminate.
  assert (Hin : In j (Py.occurrences "0.1.0" (swapped "0.1.0" content i "0.1.1")))
    by (rewrite E; now left).
  destruct (remaining_overlaps _ _ _ Hne Honce _ _ Hin) as [H1 H2].
  apply occurrences_spec in Hin. destruct Hin as [_ Hs].
  pose proof (once_split _ _ _ Honce) as Hc.
  pose proof (length_before _ _ _ Honce) as Hb.
  pose proof (once_only _ _ _ Honce j) as Honly.
  unfold swapped in Hs, Hc. simpl String.length in *.
  set (A := Py.take i content) in *.
  set (B := Py.drop (i + 5) content) in *.
  destruct (le_lt_dec i j) as [Hij|Hji].
  - replace j with (String.length A + (j - i))%nat in Hs by lia.
    rewrite drop_app_ge in Hs.
    destruct (j - i)%nat as [|[|[|[|[|k]]]]] eqn:Ek; try lia;
      simpl in Hs; discriminate.
  - rewrite drop_app_le in Hs by lia.
    assert (Hj : (j <= String.length content)%nat)
      by (rewrite Hc, length_app; lia).
    assert (Hd : Py.drop j content = (Py.drop j A ++ "0.1.0" ++ B)%string)
      by (rewrite Hc at 1; apply drop_app_le; lia).
    rewrite Hd in Honly.
    pose proof (length_drop j A) as Hl.
    destruct (Py.drop j A) as [|c1 [|c2 [|c3 [|c4 [|c5 T]]]]];
      simpl in Hl; try lia.
    + simpl in Hs. rewrite ?andb_false_r in Hs. discriminate.
    + simpl in Hs. rewrite ?andb_false_r in Hs. discriminate.
    + simpl in Hs. rewrite ?andb_false_r in Hs. discriminate.
    + specialize (Honly Hj Hs). lia.
Qed.

(** ** The manifest writer *)

Lemma update_missing prior_ver new_ver w :
  info_toml (disk w) = None ->
  update_info_toml_version prior_ver new_ver w = (Raise MissingManifest, w).
Proof.
  intros H. unfold update_info_toml_version, bind, info_toml_exists.
  now rewrite H.
Qed.

(** What the writer does with a manifest, by the number of occurrences of
    the prior version. *)
Lemma update_cases prior_ver new_ver w content :
  info_toml (disk w) = Some content ->
  update_info_toml_version prior_ver new_ver w
  = match Py.occurrences (version_to_str prior_ver) content with
    | [] => (Raise (VersionNotFound (version_to_str prior_ver)), w)
    | [i] =>
        (Ok tt,
         written w (swapped (version_to_str prior_ver) content i
                            (version_to_str new_ver)) new_ver)
    | _ :: _ :: _ => (Raise (AmbiguousVersion (version_to_str prior_ver)), w)
    end.
Proof.
  intros H.
  unfold update_info_toml_version, bind, info_toml_exists, info_toml_read_text.
  rewrite H. cbn [negb]. rewrite H.
  rewrite (contains_occurrences _ content 0).
  pose proof (find_rfind_occurrences (version_to_str prior_ver) content) as Hfr.
  fold (Py.occurrences (version_to_str prior_ver) content).
  destruct (Py.occurrences (version_to_str prior_ver) content)
    as [|i [|j rest]] eqn:E; cbn [negb].
  - reflexivity.
  - destruct (Z.eqb_spec (Py.find content (version_to_str prior_ver))
                         (Py.rfind content (version_to_str prior_ver))) as [_|Hne].
    + cbn [negb]. rewrite (replace_once _ _ _ _ (version_to_str_nonempty _) E).
      reflexivity.
    + apply Hfr in Hne. simpl in Hne. lia.
  - destruct (Z.eqb_spec (Py.find content (version_to_str prior_ver))
                         (Py.rfind content (version_to_str prior_ver))) as [Heq|_].
    + exfalso. apply Hfr; [simpl; lia | exact Heq].
    + reflexivity.
Qed.

(** C4. The manifest writer raises AmbiguousVersion, and writes nothing,
    whenever the canonical string of the prior version occurs more than
    once in the manifest, which is to say whenever the index of its first
    occurrence ([find]) differs from that of its last ([rfind]): either
    condition gives the other, the exception, and a world left as it was. *)
Theorem ambiguous_version_rejected prior_ver new_ver w content :
  info_toml (disk w) = Some content ->
  (2 <= List.length (Py.occurrences (version_to_str prior_ver) content))%nat \/
  Py.find content (version_to_str prior_ver)
    <> Py.rfind content (version_to_str prior_ver) ->
  ((2 <= List.length (Py.occurrences (version_to_str prior_ver) content))%nat /\
   Py.find content (version_to_str prior_ver)
     <> Py.rfind content (version_to_str prior_ver)) /\
  update_info_toml_version prior_ver new_ver w
  = (Raise (AmbiguousVersion (version_to_str prior_ver)), w).
Proof.
  intros Hfile Hmany.
  pose proof (find_rfind_occurrences (version_to_str prior_ver) content) as Hfr.
  assert (H2 : (2 <= List.length
                       (Py.occurrences (version_to_str prior_ver) content))%nat)
    by (destruct Hmany as [H|H]; [exact H | now apply Hfr]).
  split; [split; [exact H2 | now apply Hfr]|].
  rewrite (update_cases _ _ _ _ Hfile).
  destruct (Py.occurrences (version_to_str prior_ver) content) as [|i [|j rest]];
    simpl in H2; try lia. reflexivity.
Qed.

Lemma ambiguous_version_rejected_witness :
  let w := Demo.world (Some "old = 0.1.0, new = 0.1.0") None in
  info_toml (disk w) = Some "old = 0.1.0, new = 0.1.0" /\
  (Py.find "old = 0.1.0, new = 0.1.0" "0.1.0" = 6 /\
   Py.rfind "old = 0.1.0, new = 0.1.0" "0.1.0" = 19) /\
  update_info_toml_version (0, 1, 0) (0, 1, 1) w
  = (Raise (Exception "More than one occurance of 0.1.0 -- bailing"), w).
Proof.
  intros w. split; [reflexivity|]. split; [split; reflexivity|].
  apply (ambiguous_version_rejected (0, 1, 0) (0, 1, 1) w
           "old = 0.1.0, new = 0.1.0"); [reflexivity|].
  left. vm_compute. lia.
Defined.

(** C5. The manifest writer raises VersionNotFound, and writes nothing,
    whenever the canonical string of the prior version occurs nowhere in
    the manifest. *)
Theorem version_not_found_rejected prior_ver new_ver w content :
  info_toml (disk w) = Some content ->
  Py.occurrences (version_to_str prior_ver) content = [] ->
  update_info_toml_version prior_ver new_ver w
  = (Raise (VersionNotFound (version_to_str prior_ver)), w).
Proof.
  intros Hfile Hnone. now rewrite (update_cases _ _ _ _ Hfile), Hnone.
Qed.

Lemma version_not_found_rejected_witness :
  let w := Demo.world (Some (Demo.manifest "plugin" "0.2.0")) None in
  info_toml (disk w) = Some (Demo.manifest "plugin" "0.2.0") /\
  Py.occurrences "0.1.0" (Demo.manifest "plugin" "0.2.0") = [] /\
  update_info_toml_version (0, 1, 0) (0, 1, 1) w
  = (Raise (Exception "Could not find `0.1.0` in info.toml"), w).
Proof.
  intros w. split; [reflexivity|]. split; [reflexivity|].
  apply (version_not_found_rejected (0, 1, 0) (0, 1, 1) w
           (Demo.manifest "plugin" "0.2.0")); reflexivity.
Defined.

(** C9. The manifest writer is atomic on error: whenever
    [update_info_toml_version] raises, the world, and so the content of the
    manifest, is as it was; and it raises in three cases only, all checked
    before the one write: no manifest, no occurrence of the prior version,
    more than one occurrence. *)
Theorem update_raises_unchanged prior_ver new_ver w e w' :
  update_info_toml_version prior_ver new_ver w = (Raise e, w') ->
  info_toml (disk w') = info_toml (disk w) /\
  w' = w /\
  ((info_toml (disk w) = None /\ e = MissingManifest) \/
   exists content,
     info_toml (disk w) = Some content /\
     ((Py.occurrences (version_to_str prior_ver) content = [] /\
       e = VersionNotFound (version_to_str prior_ver)) \/
      ((2 <= List.length (Py.occurrences (version_to_str prior_ver) content))%nat /\
       e = AmbiguousVersion (version_to_str prior_ver)))).
Proof.
  intros H.
  destruct (info_toml (disk w)) as [content|] eqn:Hfile.
  - rewrite (update_cases _ _ _ _ Hfile) in H.
    destruct (Py.occurrences (version_to_str prior_ver) content)
      as [|i [|j rest]] eqn:E; inversion H; subst.
    + split; [exact Hfile|]. split; [reflexivity|].
      right. exists content. split; [reflexivity|]. left. now split.
    + split; [exact Hfile|]. split; [reflexivity|].
      right. exists content. split; [reflexivity|].
      right. rewrite E. split; [simpl; lia | reflexivity].
  - rewrite (update_missing _ _ _ Hfile) in H. inversion H; subst.
    split; [exact Hfile|]. split; [reflexivity|]. left. now split.
Qed.

Lemma update_raises_unchanged_witness :
  let w := Demo.world (Some "old = 0.1.0, new = 0.1.0") None in
  update_info_toml_version (0, 1, 0) (0, 1, 1) w
  = (Raise (AmbiguousVersion "0.1.0"), w) /\
  info_toml (disk w) = Some "old = 0.1.0, new = 0.1.0".
Proof.
  intros w. split; [reflexivity|].
  apply (update_raises_unchanged (0, 1, 0) (0, 1, 1) w
           (AmbiguousVersion "0.1.0") w).
  reflexivity.
Defined.

(** C6 (amended). For every manifest in which the canonical string of the
    prior version occurs exactly once, at index [i], the write succeeds
    and leaves the manifest with the new string at [i] and the text before
    and after it as they were; an occurrence of the prior string that is
    left over overlaps the new string.  For the patch bump of 0.1.0 the
    result holds 0.1.1 and no 0.1.0. *)
Theorem unique_version_swapped prior_ver new_ver w content i :
  info_toml (disk w) = Some content ->
  Py.occurrences (version_to_str prior_ver) content = [i] ->
  let pv_str := version_to_str prior_ver in
  let nv_str := version_to_str new_ver in
  let result := swapped pv_str content i nv_str in
  update_info_toml_version prior_ver new_ver w = (Ok tt, written w result new_ver) /\
  info_toml (disk (written w result new_ver)) = Some result /\
  In i (Py.occurrences nv_str result) /\
  (forall j, In j (Py.occurrences pv_str result) ->
     (i < j + String.length pv_str /\ j < i + String.length nv_str)%nat) /\
  (prior_ver = (0, 1, 0) -> bump_version prior_ver "patch" = Ok new_ver ->
   Py.contains "0.1.1" result = true /\ Py.occurrences "0.1.0" result = []).
Proof.
  intros Hfile Honce pv_str nv_str result.
  pose proof (version_to_str_nonempty prior_ver) as Hne.
  split; [|split; [|split; [|split]]].
  - now rewrite (update_cases _ _ _ _ Hfile), Honce.
  - reflexivity.
  - apply (swapped_here _ _ _ Honce).
  - intros j Hj. apply (remaining_overlaps _ _ _ Hne Honce _ _ Hj).
  - intros -> [= <-].
    assert (Hin : In i (Py.occurrences "0.1.1" result))
      by apply (swapped_here _ _ _ Honce).
    split.
    + rewrite (contains_occurrences _ result 0).
      fold (Py.occurrences "0.1.1" result).
      destruct (Py.occurrences "0.1.1" result); [destruct Hin | reflexivity].
    + apply (swap_010_leaves_none content i Honce).
Qed.

Lemma unique_version_swapped_witness :
  let content := Demo.manifest "plugin" "0.1.0" in
  let result := Demo.manifest "plugin" "0.1.1" in
  let w := Demo.world (Some content) None in
  info_toml (disk w) = Some content /\
  Py.occurrences "0.1.0" content = [34%nat] /\
  update_info_toml_version (0, 1, 0) (0, 1, 1) w = (Ok tt, written w result (0, 1, 1)) /\
  Py.contains "0.1.1" result = true /\
  Py.occurrences "0.1.0" result = [].
Proof.
  intros content result w.
  assert (Hfile : info_toml (disk w) = Some content) by reflexivity.
  assert (Honce : Py.occurrences (version_to_str (0, 1, 0)) content = [34%nat])
    by reflexivity.
  pose proof (unique_version_swapped (0, 1, 0) (0, 1, 1) w content 34 Hfile Honce)
    as [Hrun [_ [_ [_ Hclean]]]].
  specialize (Hclean eq_refl eq_refl).
  split; [exact Hfile|]. split; [exact Honce|].
  split; [exact Hrun|]. exact Hclean.
Defined.

(** The writer on [1.0.0.0.0], patch bump of 1.0.0: the prior string occurs
    once, the write succeeds, and the result [1.0.1.0.0] holds the prior
    string again, at index 4. *)
Lemma left_over_counterexample :
  Py.occurrences (version_to_str (1, 0, 0)) "1.0.0.0.0" = [0%nat] /\
  bump_version (1, 0, 0) "patch" = Ok (1, 0, 1) /\
  update_info_toml_version (1, 0, 0) (1, 0, 1) (Demo.world (Some "1.0.0.0.0") None)
  = (Ok tt, written (Demo.world (Some "1.0.0.0.0") None) "1.0.1.0.0" (1, 0, 1)) /\
  Py.contains (version_to_str (1, 0, 0)) "1.0.1.0.0" = true /\
  Py.occurrences (version_to_str (1, 0, 0)) "1.0.1.0.0" = [4%nat].
Proof. repeat split; reflexivity. Qed.

(** ** Versions *)

(** C1. For every version triple (M, N, P) of non-negative integers, the
    bump is (M+1, 0, 0) for major, (M, N+1, 0) for minor and (M, N, P+1)
    for patch: the bumped component goes up by one, the lower ones are
    reset to zero, the higher ones stay. *)
Theorem bump_version_components (M N P : Z) :
  0 <= M -> 0 <= N -> 0 <= P ->
  bump_version (M, N, P) "major" = Ok (M + 1, 0, 0) /\
  bump_version (M, N, P) "minor" = Ok (M, N + 1, 0) /\
  bump_version (M, N, P) "patch" = Ok (M, N, P + 1).
Proof. intros _ _ _. repeat split; reflexivity. Qed.

Lemma bump_version_components_witness :
  (0 <= 1 /\ 0 <= 2 /\ 0 <= 3) /\
  bump_version (1, 2, 3) "major" = Ok (2, 0, 0) /\
  bump_version (1, 2, 3) "minor" = Ok (1, 3, 0) /\
  bump_version (1, 2, 3) "patch" = Ok (1, 2, 4).
Proof.
  split; [lia|]. apply (bump_version_components 1 2 3); lia.
Defined.

(** C8 (amended). Round trip within the limit of the interpreter: for
    every version triple v of non-negative integers of at most 4300
    decimal digits each, [version_to_str] returns and parsing its string
    gives v again.  Beyond the limit [str] raises, see the
    counterexample. *)
Theorem version_round_trip_within_limit (M N P : Z) :
  0 <= M -> 0 <= N -> 0 <= P ->
  Z.of_nat (Py.digits M) <= Py.max_str_digits ->
  Z.of_nat (Py.digits N) <= Py.max_str_digits ->
  Z.of_nat (Py.digits P) <= Py.max_str_digits ->
  version_to_str_run (M, N, P) = Ok (version_to_str (M, N, P)) /\
  version_from_str (version_to_str (M, N, P)) = Ok (M, N, P).
Proof.
  intros _ _ _ HM HN HP. split.
  - now apply version_to_str_run_ok.
  - now apply version_round_trip_any.
Qed.

Lemma version_round_trip_within_limit_witness :
  (0 <= 0 /\ 0 <= 19 /\ 0 <= 100) /\
  (Py.digits 0 = 1%nat /\ Py.digits 19 = 2%nat /\ Py.digits 100 = 3%nat) /\
  version_to_str_run (0, 19, 100) = Ok "0.19.100" /\
  version_from_str (version_to_str (0, 19, 100)) = Ok (0, 19, 100).
Proof.
  split; [lia|]. split; [repeat split; reflexivity|].
  apply (version_round_trip_within_limit 0 19 100); vm_compute; congruence.
Defined.

(** The version (10^4300, 0, 0): its first component has 4301 digits,
    [str] raises on it, so [version_to_str] raises and there is no string
    to parse; and [int] refuses the 4301 digits of its decimal string. *)
Lemma version_round_trip_counterexample :
  0 <= 10 ^ 4300 /\
  Py.digits (10 ^ 4300) = 4301%nat /\
  version_to_str_run (10 ^ 4300, 0, 0) = Raise (ValueError Py.exceeds_limit) /\
  version_from_str (version_to_str (10 ^ 4300, 0, 0))
  = Raise (ValueError Py.exceeds_limit).
Proof.
  split; [apply Z.pow_nonneg; lia|].
  split; [vm_compute; reflexivity|].
  split; vm_compute; reflexivity.
Qed.

(** ** The history of a run *)

Section HistoryFacts.

Local Open Scope list_scope.

Lemma effects_ret {A} (a : A) : appends_effects (ret a).
Proof. intros w. exists []. now rewrite List.app_nil_r. Qed.

Lemma effects_raise {A} e : appends_effects (@raise A e).
Proof. intros w. exists []. now rewrite List.app_nil_r. Qed.

Lemma effects_lift {A} (r : result A) : appends_effects (lift r).
Proof. intros w. exists []. now rewrite List.app_nil_r. Qed.

Lemma effects_bind {A B} (m : M A) (k : A -> M B) :
  appends_effects m -> (forall a, appends_effects (k a)) ->
  appends_effects (bind m k).
Proof.
  intros Hm Hk w. destruct (Hm w) as (e1 & He1 & H1). unfold bind.
  destruct (m w) as [[a|e] w1]; simpl in H1.
  - destruct (Hk a w1) as (e2 & He2 & H2). exists (e1 ++ e2). split.
    + now rewrite forallb_app, He1, He2.
    + now rewrite H2, H1, List.app_assoc.
  - exists e1. now split.
Qed.

Lemma effects_logging r : appends_effects (logging_info r).
Proof. intros w. exists [Logged r]. now split. Qed.

Lemma effects_exists : appends_effects info_toml_exists.
Proof. intros w. exists []. now rewrite List.app_nil_r. Qed.

Lemma effects_read_text : appends_effects info_toml_read_text.
Proof.
  intros w. exists []. unfold info_toml_read_text.
  destruct (info_toml (disk w)); now rewrite List.app_nil_r.
Qed.

Lemma effects_write_text c : appends_effects (info_toml_write_text c).
Proof. intros w. exists [Wrote c]. now split. Qed.

Lemma effects_repo : appends_effects Repo_curdir.
Proof.
  intros w. exists []. unfold Repo_curdir.
  destruct (repo (disk w)); now rewrite List.app_nil_r.
Qed.

Lemma effects_git E c : appends_effects (repo_git E c).
Proof.
  intros w. exists [GitRan c]. unfold repo_git.
  destruct (git_run E c (disk w)). now split.
Qed.

Lemma effects_popen E : appends_effects (popen_build E).
Proof.
  intros w. exists [Spawned]. unfold popen_build.
  destruct (build_sh E (disk w)). now split.
Qed.

Ltac effects :=
  repeat first
    [ apply effects_ret | apply effects_raise | apply effects_lift
    | apply effects_logging | apply effects_exists | apply effects_read_text
    | apply effects_write_text | apply effects_repo | apply effects_git
    | apply effects_popen
    | apply effects_bind; [|intros ?]
    | match goal with
      | |- appends_effects (if ?b then _ else _) => destruct b
      | |- appends_effects (match ?x with _ => _ end) => destruct x
      end ].

Lemma effects_check : appends_effects git_check_in_repo.
Proof. unfold git_check_in_repo, git_get_repo. effects. Qed.

Lemma effects_read E : appends_effects (read_info_toml_version E).
Proof. unfold read_info_toml_version, toml_load. effects. Qed.

Lemma effects_update prior_ver new_ver :
  appends_effects (update_info_toml_version prior_ver new_ver).
Proof. unfold update_info_toml_version. effects. Qed.

Lemma effects_commit_version E prior_ver ver :
  appends_effects (git_commit_version E prior_ver ver).
Proof. unfold git_commit_version, git_get_repo. effects. Qed.

Lemma effects_build E ver : appends_effects (build_plugin E ver).
Proof. unfold build_plugin. effects. Qed.

Lemma effects_commit_release E ver :
  appends_effects (git_commit_new_release E ver).
Proof. unfold git_commit_new_release, git_get_repo. effects. Qed.

(** A marked call: its part of the history, by the way it ends. *)
Lemma call_history {A} f (body : M A) w :
  appends_effects body ->
  exists effects,
    forallb is_effect effects = true /\
    history (snd (call f body w))
    = history w ++ Enter f :: effects ++
        [match fst (call f body w) with
         | Ok _ => Return f
         | Raise e => Raised f e
         end].
Proof.
  intros Hb. destruct (Hb (mkWorld (disk w) (history w ++ [Enter f])))
    as (effs & He & H).
  exists effs. split; [exact He|]. unfold call.
  destruct (body _) as [[a|e] w1]; simpl in *;
    rewrite H, <- !List.app_assoc; reflexivity.
Qed.

Lemma call_raises {A} (P : exn -> Prop) f (body : M A) :
  raises_only P body -> raises_only P (call f body).
Proof.
  intros Hb w e w'. unfold call.
  destruct (body _) as [[a|e1] w1] eqn:E; intros [= <- <-] || intros [=].
  eapply Hb, E.
Qed.

Variable may_raise : fn -> exn -> Prop.

Lemma runs_last {A} f (body : M A) :
  appends_effects body -> raises_only (may_raise f) body ->
  runs may_raise [f] (call f body).
Proof.
  intros Hb Hr w. destruct (call_history f body w Hb) as (effs & He & H).
  eexists. split; [exact H|].
  pose proof (call_raises _ f body Hr w) as Hraise.
  destruct (call f body w) as [[a|e] w1]; simpl.
  - apply sequenced_return; [exact He | constructor].
  - apply sequenced_raise; [exact He | eapply Hraise; reflexivity].
Qed.

Lemma runs_bind {A B} f fs (body : M A) (k : A -> M B) :
  appends_effects body -> raises_only (may_raise f) body ->
  (forall a, runs may_raise fs (k a)) ->
  runs may_raise (f :: fs) (bind (call f body) k).
Proof.
  intros Hb Hr Hk w. destruct (call_history f body w Hb) as (effs & He & H).
  pose proof (call_raises _ f body Hr w) as Hraise.
  unfold bind. destruct (call f body w) as [[a|e] w1]; simpl in H.
  - destruct (Hk a w1) as (tr & Htr & Hseq).
    exists (Enter f :: effs ++ Return f :: tr). split.
    + rewrite Htr, H, <- List.app_assoc. simpl. now rewrite <- List.app_assoc.
    + now apply sequenced_return.
  - exists (Enter f :: effs ++ [Raised f e]). split; [exact H|].
    apply sequenced_raise; [exact He | eapply Hraise; reflexivity].
Qed.

End HistoryFacts.

(** ** The release *)

Section ReleaseFacts.

Local Open Scope list_scope.

Variable E : Externals.

(** The check reads the repository and touches nothing. *)
Lemma call_check w :
  call F_git_check_in_repo git_check_in_repo w
  = match repo (disk w) with
    | None =>
        (Raise InvalidGitRepositoryError,
         mkWorld (disk w)
           (history w ++ [Enter F_git_check_in_repo;
                          Raised F_git_check_in_repo InvalidGitRepositoryError]))
    | Some r =>
        (Ok (negb (bare r)),
         mkWorld (disk w)
           (history w ++ [Enter F_git_check_in_repo; Return F_git_check_in_repo]))
    end.
Proof.
  unfold call, git_check_in_repo, git_get_repo, bind, Repo_curdir. simpl.
  destruct (repo (disk w)) as [r|]; [destruct (bare r)|]; simpl;
    rewrite <- List.app_assoc; reflexivity.
Qed.

(** What follows the check in [run_release]. *)
Lemma run_release_unfold bump_level w :
  run_release E bump_level w
  = match call F_git_check_in_repo git_check_in_repo w with
    | (Ok true, w1) =>
        (prior_ver <- call F_read_info_toml_version (read_info_toml_version E) ;;
         ver <- call F_bump_version (lift (bump_version prior_ver bump_level)) ;;
         call F_update_info_toml_version (update_info_toml_version prior_ver ver) ;;
         call F_git_commit_version (git_commit_version E prior_ver ver) ;;
         call F_build_plugin (build_plugin E ver) ;;
         call F_git_commit_new_release (git_commit_new_release E ver)) w1
    | (Ok false, w1) => (Raise (Exception "not in a git repo!"), w1)
    | (Raise e, w1) => (Raise e, w1)
    end.
Proof.
  unfold run_release, bind at 1.
  destruct (call F_git_check_in_repo git_check_in_repo w) as [[[|]|e] w1];
    reflexivity.
Qed.

Variable may_raise : fn -> exn -> Prop.
Hypothesis build_raises :
  forall ver, raises_only (may_raise F_build_plugin) (build_plugin E ver).
Hypothesis others_raise : forall f e, f <> F_build_plugin -> may_raise f e.

Lemma others_raise_only {A} f (m : M A) :
  f <> F_build_plugin -> raises_only (may_raise f) m.
Proof. intros Hf w e w' _. now apply others_raise. Qed.

(** The part of the history a release adds is sequenced over
    [release_order], unless the check answers no. *)
Lemma run_release_history bump_level w :
  exists tr,
    history (snd (run_release E bump_level w)) = history w ++ tr /\
    (sequenced may_raise release_order tr
       (error_of (fst (run_release E bump_level w))) \/
     (fst (run_release E bump_level w) = Raise (Exception "not in a git repo!") /\
      tr = [Enter F_git_check_in_repo; Return F_git_check_in_repo])).
Proof.
  rewrite run_release_unfold, call_check.
  destruct (repo (disk w)) as [r|].
  - destruct (bare r); cbn [negb].
    + eexists. split; [reflexivity|]. right. now split.
    + match goal with |- context [?m (mkWorld ?d ?h)] =>
        assert (Hruns : runs may_raise (tl release_order) m)
      end.
      { apply runs_bind; [apply effects_read | now apply others_raise_only |].
        intros prior_ver.
        apply runs_bind; [apply effects_lift | now apply others_raise_only |].
        intros ver.
        apply runs_bind; [apply effects_update | now apply others_raise_only |].
        intros _.
        apply runs_bind;
          [apply effects_commit_version | now apply others_raise_only |].
        intros _.
        apply runs_bind; [apply effects_build | apply build_raises |].
        intros _.
        apply runs_last;
          [apply effects_commit_release | now apply others_raise_only]. }
      match goal with |- context [?m (mkWorld ?d ?h)] =>
        destruct (Hruns (mkWorld d h)) as (tr & Htr & Hseq)
      end.
      exists (Enter F_git_check_in_repo :: [] ++ Return F_git_check_in_repo :: tr).
      split.
      * rewrite Htr. simpl. now rewrite <- List.app_assoc.
      * left. apply sequenced_return; [reflexivity | exact Hseq].
  - eexists. split; [reflexivity|]. left.
    apply (sequenced_raise _ _ _ []); [reflexivity|].
    now apply others_raise.
Qed.

End ReleaseFacts.

(** *** The release and the state machine *)

Lemma machine_aborted n E bump_level e w :
  machine n E bump_level (Aborted e) w = (Aborted e, w).
Proof. induction n as [|n IH]; [reflexivity | exact IH]. Qed.

Lemma machine_done n E bump_level w :
  machine n E bump_level Done w = (Done, w).
Proof. induction n as [|n IH]; [reflexivity | exact IH]. Qed.

Lemma machine_plus n m E bump_level : forall p w,
  machine (n + m) E bump_level p w
  = machine m E bump_level (fst (machine n E bump_level p w))
                           (snd (machine n E bump_level p w)).
Proof.
  induction n as [|n IH]; intros p w; [reflexivity|].
  cbn [Nat.add machine]. destruct (transition E bump_level p w) as [p' w'].
  apply IH.
Qed.

Lemma machine_S n E bump_level p w :
  machine (S n) E bump_level p w
  = machine n E bump_level (fst (transition E bump_level p w))
                           (snd (transition E bump_level p w)).
Proof. cbn [machine]. now destruct (transition E bump_level p w). Qed.

Ltac machine_abort :=
  rewrite machine_aborted; split; [reflexivity | right; eexists; reflexivity].

Ltac machine_step :=
  rewrite machine_S; cbn [transition]; unfold advance;
  match goal with
  | |- context [call ?f ?body ?w] =>
      destruct (call f body w) as [[?a|?e] ?w1]
  end;
  cbn [fst snd]; [|machine_abort].

(** [run_release] does what the state machine does in eight transitions
    from [Start], and the machine is then in a final state. *)
Lemma run_release_machine E bump_level w :
  run_release E bump_level w
  = release_outcome (machine 8 E bump_level Start w) /\
  (fst (machine 8 E bump_level Start w) = Done \/
   exists e, fst (machine 8 E bump_level Start w) = Aborted e).
Proof.
  unfold run_release, bind.
  machine_step.
  destruct a; cbn [negb]; [|machine_abort].
  do 6 machine_step.
  rewrite machine_S. cbn [transition fst snd machine].
  match goal with u : unit |- _ => destruct u end.
  split; [reflexivity | now left].
Qed.

(** C2. The release runs its steps in the fixed order (check,) read
    version, bump, write manifest, commit version, build, commit
    artifacts, and fails fast.  [run_release] is the state machine of the
    specification run from [Start]: each transition calls the one step of
    its state, on the world the step before has left, and a step that
    raises puts the machine in [Aborted].  After eight transitions the
    machine is in [Done] or [Aborted].  Whenever a step aborts, at
    whatever stage, the release ends with the exception of that step and
    in the world that step has left: no later step, no second try, no
    undoing.  And what a run adds to the history is the sequence of the
    calls in that order, each at most once, ended by the call that
    raises. *)
Theorem run_release_fail_fast E bump_level w :
  run_release E bump_level w
  = release_outcome (machine 8 E bump_level Start w) /\
  (fst (machine 8 E bump_level Start w) = Done \/
   exists e, fst (machine 8 E bump_level Start w) = Aborted e) /\
  (forall k e,
     fst (machine k E bump_level Start w) = Aborted e ->
     run_release E bump_level w
     = (Raise e, snd (machine k E bump_level Start w))) /\
  exists tr,
    history (snd (run_release E bump_level w)) = (history w ++ tr)%list /\
    (sequenced anything release_order tr
       (error_of (fst (run_release E bump_level w))) \/
     (fst (run_release E bump_level w) = Raise (Exception "not in a git repo!") /\
      tr = [Enter F_git_check_in_repo; Return F_git_check_in_repo])).
Proof.
  destruct (run_release_machine E bump_level w) as [Hrun Hfinal].
  split; [exact Hrun|]. split; [exact Hfinal|]. split.
  - intros k e Hk. rewrite Hrun.
    destruct (Nat.le_gt_cases k 8) as [Hle|Hgt].
    + replace 8%nat with (k + (8 - k))%nat by lia.
      rewrite machine_plus, Hk, machine_aborted. reflexivity.
    + replace k with (8 + (k - 8))%nat in Hk |- * by lia.
      rewrite machine_plus in Hk |- *.
      destruct Hfinal as [Hd|(e' & He')].
      * rewrite Hd, machine_done in Hk. discriminate.
      * rewrite He', machine_aborted in Hk |- *. cbn [fst snd] in *.
        injection Hk as <-. unfold release_outcome. now rewrite He'.
  - apply run_release_history.
    + intros ver w0 e w' _. exact I.
    + intros f e _. exact I.
Qed.

Lemma run_release_fail_fast_witness :
  let E := Demo.externals Demo.done None in
  let w := Demo.world (Some (Demo.nameless "0.1.0")) (Some Demo.fresh_repo) in
  fst (machine 2 E "patch" Start w) = Aborted (KeyError "name") /\
  run_release E "patch" w
  = (Raise (KeyError "name"), snd (machine 2 E "patch" Start w)).
Proof.
  intros E w.
  assert (H : fst (machine 2 E "patch" Start w) = Aborted (KeyError "name"))
    by reflexivity.
  split; [exact H|].
  destruct (run_release_fail_fast E "patch" w) as (_ & _ & Habort & _).
  apply (Habort 2%nat (KeyError "name") H).
Defined.

(** ** The manifest reader *)

Section ReaderFacts.

Variable E : Externals.

Ltac run_read Hw :=
  intros w Hw;
  unfold read_info_toml_version, toml_load, bind, info_toml_exists,
    info_toml_read_text, lift;
  rewrite Hw; cbn [negb]; rewrite Hw.

(** A manifest without [meta.name] makes the reader raise before it logs
    anything; the exception depends on the manifest only. *)
Lemma read_nameless content :
  (forall info, toml_loads E content = Ok info -> has_meta_name info = false) ->
  exists e, forall w,
    info_toml (disk w) = Some content ->
    read_info_toml_version E w = (Raise e, w).
Proof.
  intros H. destruct (toml_loads E content) as [info|e0] eqn:Hl.
  - specialize (H info eq_refl). unfold has_meta_name in H.
    destruct (assoc "meta" info) as [meta|] eqn:Hm.
    + destruct meta as [s|n|b|items|entries|].
      5:{ destruct (assoc "name" entries) eqn:Hn; [discriminate|].
          destruct (assoc "version" entries) as [v|] eqn:Hv.
          - exists (KeyError "name"). run_read Hw.
            rewrite Hl. unfold getitem. rewrite Hm, Hv, Hn. reflexivity.
          - exists (KeyError "version"). run_read Hw.
            rewrite Hl. unfold getitem. rewrite Hm, Hv. reflexivity. }
      all: exists TypeError; run_read Hw; rewrite Hl; unfold getitem;
        rewrite Hm; reflexivity.
    + exists (KeyError "meta"). run_read Hw.
      rewrite Hl. unfold getitem. rewrite Hm. reflexivity.
  - exists e0. run_read Hw. rewrite Hl. reflexivity.
Qed.

End ReaderFacts.

(** C10. The reader requires the name although the name is only logged:
    for every manifest without the [meta.name] entry (or without the
    [meta] table), whatever its version entry, [read_info_toml_version]
    raises and leaves the world as it was; the release then ends with an
    exception, the working directory untouched, no effect in the history
    and no call beyond the reader, so before any bump.  In a repository
    that passes the check the exception is the reader's. *)
Theorem nameless_manifest_rejected E bump_level w content :
  info_toml (disk w) = Some content ->
  (forall info, toml_loads E content = Ok info -> has_meta_name info = false) ->
  exists e,
    read_info_toml_version E w = (Raise e, w) /\
    exists e' tr,
      run_release E bump_level w
      = (Raise e', mkWorld (disk w) (history w ++ tr)) /\
      existsb is_effect tr = false /\
      (forall f, In (Enter f) tr ->
         f = F_git_check_in_repo \/ f = F_read_info_toml_version) /\
      (forall r, repo (disk w) = Some r -> bare r = false ->
         e' = e /\
         tr = [Enter F_git_check_in_repo; Return F_git_check_in_repo;
               Enter F_read_info_toml_version;
               Raised F_read_info_toml_version e]).
Proof.
  intros Hfile Hname.
  destruct (read_nameless E content Hname) as (e & Hread).
  exists e. split; [now apply Hread|].
  rewrite run_release_unfold, call_check.
  destruct (repo (disk w)) as [r|].
  - destruct (bare r) eqn:Hbare; cbn [negb].
    + do 2 eexists. split; [reflexivity|]. split; [reflexivity|]. split.
      * intros f [[= <-]|[[=]|[]]]. now left.
      * intros r' [= <-]. congruence.
    + unfold bind at 1, call at 1. rewrite Hread by exact Hfile.
      cbn [disk history]. do 2 eexists. split.
      * rewrite <- !List.app_assoc. reflexivity.
      * split; [reflexivity|]. split.
        -- intros f [[= <-]|[[=]|[[= <-]|[[=]|[]]]]]; auto.
        -- intros r' _ _. now split.
  - do 2 eexists. split; [reflexivity|]. split; [reflexivity|]. split.
    + intros f [[= <-]|[[=]|[]]]. now left.
    + intros r' [=].
Qed.

Lemma nameless_manifest_rejected_witness :
  let E := Demo.externals Demo.done (Some 0) in
  let content := Demo.nameless "0.1.0" in
  let w := Demo.world (Some content) (Some Demo.fresh_repo) in
  (info_toml (disk w) = Some content /\
   toml_loads E content = Ok [("meta", TTable [("version", TString "0.1.0")])] /\
   version_from_str "0.1.0" = Ok (0, 1, 0)) /\
  read_info_toml_version E w = (Raise (KeyError "name"), w) /\
  exists tr,
    run_release E "patch" w = (Raise (KeyError "name"), mkWorld (disk w) tr).
Proof.
  intros E content w. split; [repeat split; reflexivity|].
  destruct (nameless_manifest_rejected E "patch" w content)
    as (e & He & e' & tr & Hrun & _ & _ & Hrepo).
  - reflexivity.
  - intros info. vm_compute. intros [= <-]. reflexivity.
  - destruct (Hrepo Demo.fresh_repo eq_refl eq_refl) as [-> _].
    assert (e = KeyError "name") as -> by (vm_compute in He; congruence).
    split; [exact He|]. eexists. exact Hrun.
Defined.

(** ** The repository check *)

(** C7 (amended). In a working directory without version-control metadata,
    or with a repository that is bare ([Repo.bare]), the release fails with
    NotARepository before any file is read or changed: the working
    directory, manifest and repository alike, is as it was, and the
    history holds the entry and the end of the check and nothing else. *)
Theorem not_a_repository_refused E bump_level w :
  repo (disk w) = None \/ (exists r, repo (disk w) = Some r /\ bare r = true) ->
  exists e tr,
    run_release E bump_level w = (Raise e, mkWorld (disk w) (history w ++ tr)) /\
    NotARepository e = true /\
    (tr = [Enter F_git_check_in_repo; Raised F_git_check_in_repo e] \/
     tr = [Enter F_git_check_in_repo; Return F_git_check_in_repo]).
Proof.
  intros H. rewrite run_release_unfold, call_check.
  destruct H as [->|(r & -> & ->)]; cbn [negb].
  - do 2 eexists. split; [reflexivity|]. split; [reflexivity|]. now left.
  - do 2 eexists. split; [reflexivity|]. split; [reflexivity|]. now right.
Qed.

Lemma not_a_repository_refused_witness :
  let E := Demo.externals Demo.done (Some 0) in
  let w := Demo.world (Some (Demo.manifest "plugin" "0.1.0")) (Some Demo.bare_repo) in
  (exists r, repo (disk w) = Some r /\ bare r = true) /\
  run_release E "patch" w
  = (Raise (Exception "not in a git repo!"),
     mkWorld (disk w) [Enter F_git_check_in_repo; Return F_git_check_in_repo]).
Proof.
  intros E w.
  assert (H : exists r, repo (disk w) = Some r /\ bare r = true)
    by (exists Demo.bare_repo; now split).
  split; [exact H|].
  destruct (not_a_repository_refused E "patch" w (or_intror H))
    as (e & tr & Hrun & _ & _).
  pose proof Hrun as Hc. vm_compute in Hc. injection Hc as He Htr.
  rewrite Hrun, <- He, <- Htr. reflexivity.
Defined.

(** A repository with a working tree and no commit yet is not refused: the
    release runs to its end, rewrites the manifest and makes the first two
    commits and the tag. *)
Lemma no_commits_counterexample :
  let E := Demo.externals Demo.done (Some 0) in
  let w := Demo.world (Some (Demo.manifest "plugin" "0.1.0")) (Some Demo.fresh_repo) in
  let w' := snd (run_release E "patch" w) in
  option_map commits (repo (disk w)) = Some [] /\
  option_map bare (repo (disk w)) = Some false /\
  fst (run_release E "patch" w) = Ok tt /\
  info_toml (disk w') = Some (Demo.manifest "plugin" "0.1.1") /\
  option_map commits (repo (disk w')) = Some ["Version: 0.1.1"; "Release: 0.1.1"] /\
  option_map tags (repo (disk w')) = Some ["0.1.1"].
Proof. repeat split; reflexivity. Qed.

(** ** The build *)

Section BuildFacts.

Local Open Scope list_scope.

(** Where a call is entered in a sequenced history: before it the earlier
    calls, after it its effects and either its exception, which ends the
    history, or its return and the calls that remain. *)
Lemma sequenced_enter may_raise fs tr err f :
  sequenced may_raise fs tr err ->
  In (Enter f) tr ->
  exists pre effects rest before remaining,
    tr = pre ++ Enter f :: effects ++ rest /\
    forallb is_effect effects = true /\
    fs = before ++ f :: remaining /\
    ((exists e, rest = [Raised f e] /\ may_raise f e) \/
     (exists tr', rest = Return f :: tr' /\
                  sequenced may_raise remaining tr' err)).
Proof.
  induction 1 as [|f0 fs effs tr err He Hseq IH|f0 fs effs e He Hmay];
    intros Hin.
  - destruct Hin.
  - destruct Hin as [[= <-]|Hin].
    + exists [], effs, (Return f0 :: tr), [], fs. repeat split; auto.
      right. now exists tr.
    + apply in_app_or in Hin. destruct Hin as [Hin|[[=]|Hin]].
      * rewrite forallb_forall in He. apply He in Hin. discriminate.
      * destruct (IH Hin) as (pre & effs' & rest & before & remaining
                              & -> & He' & -> & Hrest).
        exists (Enter f0 :: effs ++ Return f0 :: pre), effs', rest,
          (f0 :: before), remaining.
        repeat split; auto.
        simpl. now rewrite <- List.app_assoc.
  - destruct Hin as [[= <-]|Hin].
    + exists [], effs, [Raised f0 e], [], fs. repeat split; auto.
      left. now exists e.
    + apply in_app_or in Hin. destruct Hin as [Hin|[[=]|[]]].
      rewrite forallb_forall in He. apply He in Hin. discriminate.
Qed.

Variable E : Externals.
Hypothesis prints_utf8 :
  forall d, decode_utf8 (stdout_read (fst (build_sh E d))) <> None.

(** Whatever the return code, [build_plugin] logs and returns. *)
Lemma build_returns ver w out code d' :
  build_sh E (disk w) = (mkPopen out code, d') ->
  exists text,
    decode_utf8 out = Some text /\
    build_plugin E ver w
    = (Ok tt,
       mkWorld d' (history w ++ [Spawned; Logged (LogOutput text);
                                 Logged (LogBuilt (version_to_str ver) code)])).
Proof.
  intros Hb. pose proof (prints_utf8 (disk w)) as Hd. rewrite Hb in Hd.
  simpl in Hd. destruct (decode_utf8 out) as [text|] eqn:Ht; [|congruence].
  exists text. split; [reflexivity|].
  unfold build_plugin, bind, popen_build. rewrite Hb. simpl. rewrite Ht.
  unfold logging_info, emit. simpl. now rewrite <- !List.app_assoc.
Qed.

Lemma build_never_raises ver :
  raises_only (fun _ => False) (build_plugin E ver).
Proof.
  intros w e w' H.
  destruct (build_sh E (disk w)) as [[out code] d'] eqn:Hb.
  destruct (build_returns ver w out code d' Hb) as (text & _ & Hrun).
  congruence.
Qed.

End BuildFacts.




(** ** The model on concrete inputs *)

Example version_from_str_literals :
  version_from_str "1.2.3" = Ok (1, 2, 3) /\
  version_from_str " 1_0.+2.-3 " = Ok (10, 2, -3) /\
  version_from_str "1.2" = Raise (Exception "expected version to be of the form X.Y.Z") /\
  version_from_str "1.x.3" = Raise (ValueError "x").
Proof. repeat split; reflexivity. Qed.

Example find_rfind_literals :
  Py.find "a0.1.0b0.1.0" "0.1.0" = 1 /\ Py.rfind "a0.1.0b0.1.0" "0.1.0" = 7 /\
  Py.find "abc" "0.1.0" = -1 /\ Py.rfind "abc" "0.1.0" = -1 /\
  Py.find "abc" EmptyString = 0 /\ Py.rfind "abc" EmptyString = 3.
Proof. repeat split; reflexivity. Qed.

Example replace_literals :
  Py.replace "aXXXb" "XX" "y" = "ayXb" /\
  Py.replace "abc" EmptyString "-" = "-a-b-c-" /\
  Py.replace "1.1.1.1" "1.1" "2" = "2.2".
Proof. repeat split; reflexivity. Qed.

Example decode_utf8_literals :
  decode_utf8 [xe2; x82; xac; xf0; x9f; x98; x80; xc3; xa9]%byte
  = Some [8364; 128512; 233]%N /\
  decode_utf8 [xed; xa0; x80]%byte = None /\
  decode_utf8 [xc0; x80]%byte = None /\
  decode_utf8 [xff]%byte = None.
Proof. repeat split; reflexivity. Qed.

(** A build that prints a byte outside UTF-8 stops the release at the
    build, whatever its return code: the hypothesis on the output in
    [build_status_ignored] is needed. *)
Example undecodable_output_raises :
  let E := Demo.externals [xff]%byte (Some 0) in
  let w := Demo.world (Some (Demo.manifest "plugin" "0.1.0")) (Some Demo.fresh_repo) in
  fst (run_release E "patch" w) = Raise UnicodeDecodeError /\
  last (history (snd (run_release E "patch" w))) Spawned
  = Raised F_build_plugin UnicodeDecodeError.
Proof. split; reflexivity. Qed.

(** * Further properties of the script *)

(** ** Versions and their strings *)

Section VersionFacts.

Local Open Scope nat_scope.

Lemma split_length sep s :
  List.length (Py.split sep s) = S (count_char sep s).
Proof.
  induction s as [|c r IH]; simpl; [reflexivity|].
  destruct (Ascii.eqb c sep); simpl; [now rewrite IH|].
  destruct (Py.split sep r); simpl in *; lia.
Qed.

Lemma count_char_app c a b :
  count_char c (a ++ b) = count_char c a + count_char c b.
Proof.
  induction a as [|x a IH]; simpl; [reflexivity|].
  destruct (Ascii.eqb x c); simpl; now rewrite IH.
Qed.

Lemma count_char_absent c s :
  Py.all_chars (fun x => negb (Ascii.eqb x c)) s = true -> count_char c s = 0.
Proof.
  induction s as [|x s IH]; simpl; [reflexivity|].
  rewrite andb_true_iff, negb_true_iff. intros [-> Hs]. now apply IH.
Qed.

Lemma int_raises s e :
  Py.int s = Raise e -> e = ValueError s \/ e = ValueError Py.exceeds_limit.
Proof.
  unfold Py.int.
  destruct (match Py.strip s with
            | String "-" r => (true, r)
            | String "+" r => (false, r)
            | _ => (false, Py.strip s)
            end) as [negative body].
  destruct (Py.scan_literal false body) as [[ds rest]|];
    [|intros [= <-]; now left].
  destruct (Py.max_str_digits <? Z.of_nat (String.length ds))%Z;
    [intros [= <-]; now right|].
  destruct rest; [|intros [= <-]; now left].
  destruct (NilEmpty.uint_of_string ds); [discriminate | intros [= <-]; now left].
Qed.

Lemma count_char_split sep s :
  Forall (fun piece => count_char sep piece = 0) (Py.split sep s).
Proof.
  induction s as [|c r IH]; cbn [Py.split]; [now constructor|].
  destruct (Ascii.eqb c sep) eqn:Hc; [now constructor|].
  destruct (Py.split sep r) as [|piece rest]; [constructor; [|constructor]|].
  - cbn [count_char]. now rewrite Hc.
  - inversion IH as [|? ? Hp Hr]; subst. constructor; [|assumption].
    cbn [count_char]. now rewrite Hc.
Qed.

(** [sep.join(s.split(sep)) == s]. *)
Lemma join_split sep s :
  Py.join (String sep EmptyString) (Py.split sep s) = s.
Proof.
  unfold Py.join.
  induction s as [|c r IH]; [reflexivity|]. cbn [Py.split].
  pose proof (split_length sep r) as Hlen.
  destruct (Py.split sep r) as [|piece rest] eqn:E; [discriminate|].
  destruct (Ascii.eqb_spec c sep) as [->|Hc].
  - change (String.concat (String sep EmptyString) (EmptyString :: piece :: rest))
      with (String sep (String.concat (String sep EmptyString) (piece :: rest))).
    now rewrite IH.
  - destruct rest as [|piece' rest'].
    + cbn [String.concat] in *. now rewrite IH.
    + change (String.concat (String sep EmptyString)
                (String c piece :: piece' :: rest'))
        with (String c (piece ++ String sep EmptyString
                          ++ String.concat (String sep EmptyString)
                                           (piece' :: rest'))).
      change (String.concat (String sep EmptyString) (piece :: piece' :: rest'))
        with (piece ++ String sep EmptyString
                ++ String.concat (String sep EmptyString) (piece' :: rest'))
        in IH.
      now rewrite IH.
Qed.

Lemma str_digits n : (0 <= n)%Z -> Py.all_chars Py.is_digit (Py.str n) = true.
Proof.
  intros Hn. unfold Py.str. destruct n as [|p|p]; [reflexivity| |lia].
  simpl. unfold NilZero.string_of_uint.
  destruct (Pos.to_uint p) eqn:E; try (rewrite <- E; apply digits_of_uint).
  reflexivity.
Qed.

End VersionFacts.

Lemma bump_version_by_level (ver : VersionTuple) (bump_level : BumpLevel) :
  ((exists ver', bump_version ver bump_level = Ok ver') <->
   bump_level = "major" \/ bump_level = "minor" \/ bump_level = "patch") /\
  (bump_level <> "major" -> bump_level <> "minor" -> bump_level <> "patch" ->
   bump_version ver bump_level
   = Raise (Exception ("bump_level provided was " ++ bump_level
                       ++ ", which is an invalid choice."))).
Proof.
  destruct ver as [[a b] c]. unfold bump_version.
  destruct (String.eqb_spec bump_level "major") as [->|H1].
  { split; [|congruence]. split; [auto | eauto]. }
  destruct (String.eqb_spec bump_level "minor") as [->|H2].
  { split; [|congruence]. split; [auto | eauto]. }
  destruct (String.eqb_spec bump_level "patch") as [->|H3].
  { split; [|congruence]. split; [auto | eauto]. }
  split; [|reflexivity].
  split; [intros [v [=]] | intros [?|[?|?]]; congruence].
Qed.

(** X1. [bump_version] answers for the levels major, minor and patch and
    for no other: any other string, the empty one and other spellings
    included, raises the exception that names it. *)
Theorem bump_version_levels (ver : VersionTuple) (bump_level : BumpLevel) :
  ((exists ver', bump_version ver bump_level = Ok ver') <->
   bump_level = "major" \/ bump_level = "minor" \/ bump_level = "patch") /\
  (bump_level <> "major" -> bump_level <> "minor" -> bump_level <> "patch" ->
   bump_version ver bump_level
   = Raise (Exception ("bump_level provided was " ++ bump_level
                       ++ ", which is an invalid choice."))).
Proof. exact (bump_version_by_level ver bump_level). Qed.

Lemma bump_version_levels_witness :
  ("Patch" <> "major" /\ "Patch" <> "minor" /\ "Patch" <> "patch") /\
  bump_version (1, 2, 3) "Patch"
  = Raise (Exception "bump_level provided was Patch, which is an invalid choice.").
Proof.
  assert (H : "Patch" <> "major" /\ "Patch" <> "minor" /\ "Patch" <> "patch")
    by (repeat split; discriminate).
  split; [exact H|]. destruct H as (H1 & H2 & H3).
  apply (proj2 (bump_version_levels (1, 2, 3) "Patch") H1 H2 H3).
Defined.

(** X2. [version_from_str] by the number of dots.  Without exactly two
    dots it raises its own exception, expected version to be of the form
    X.Y.Z.  With two dots the string is three pieces free of dots around
    them, and the result is made of [int] of the pieces taken from the
    left: the version of the three integers if all three are literals,
    else the [ValueError] of the first piece that is none; its own
    exception is then out of the question. *)
Theorem version_from_str_arity (version : string) :
  (count_char "." version <> 2%nat ->
   version_from_str version
   = Raise (Exception "expected version to be of the form X.Y.Z")) /\
  (count_char "." version = 2%nat ->
   exists p0 p1 p2,
     version = (p0 ++ "." ++ p1 ++ "." ++ p2)%string /\
     count_char "." p0 = 0%nat /\ count_char "." p1 = 0%nat /\
     count_char "." p2 = 0%nat /\
     version_from_str version
     = match Py.int p0 with
       | Raise e => Raise e
       | Ok major =>
           match Py.int p1 with
           | Raise e => Raise e
           | Ok minor =>
               match Py.int p2 with
               | Raise e => Raise e
               | Ok patch => Ok (major, minor, patch)
               end
           end
       end /\
     version_from_str version
     <> Raise (Exception "expected version to be of the form X.Y.Z")).
Proof.
  unfold version_from_str.
  pose proof (split_length "." version) as Hlen.
  pose proof (count_char_split "." version) as Hpieces.
  pose proof (join_split "." version) as Hjoin.
  destruct (Py.split "." version) as [|p0 [|p1 [|p2 [|p3 l]]]];
    simpl in Hlen; try (split; [reflexivity | intros; lia]).
  split; [intros; lia|]. intros _. exists p0, p1, p2.
  pose proof (Forall_inv Hpieces) as H0.
  pose proof (Forall_inv (Forall_inv_tail Hpieces)) as H1.
  pose proof (Forall_inv (Forall_inv_tail (Forall_inv_tail Hpieces))) as H2.
  cbv beta in H0, H1, H2.
  split; [now rewrite <- Hjoin|]. repeat (split; [assumption|]).
  unfold rbind. split; [reflexivity|].
  destruct (Py.int p0) eqn:E0;
    [|apply int_raises in E0; destruct E0; congruence].
  destruct (Py.int p1) eqn:E1;
    [|apply int_raises in E1; destruct E1; congruence].
  destruct (Py.int p2) eqn:E2;
    [|apply int_raises in E2; destruct E2; congruence].
  discriminate.
Qed.

Lemma version_from_str_arity_witness :
  (count_char "." "1..3" = 2%nat /\ count_char "." "1.2.3.4" <> 2%nat) /\
  version_from_str "1..3" = Raise (ValueError EmptyString) /\
  version_from_str "1.2.3.4"
  = Raise (Exception "expected version to be of the form X.Y.Z").
Proof.
  assert (H2 : count_char "." "1..3" = 2%nat) by reflexivity.
  assert (H3 : count_char "." "1.2.3.4" <> 2%nat) by discriminate.
  split; [now split|]. split.
  - destruct (proj2 (version_from_str_arity "1..3") H2)
      as (p0 & p1 & p2 & _ & _ & _ & _ & _ & _). reflexivity.
  - apply (proj1 (version_from_str_arity "1.2.3.4") H3).
Defined.

Lemma version_to_str_inj (v1 v2 : VersionTuple) :
  version_to_str v1 = version_to_str v2 -> v1 = v2.
Proof.
  destruct v1 as [[a1 b1] c1], v2 as [[a2 b2] c2]. intros H.
  pose proof (version_split a1 b1 c1) as H1.
  rewrite H, version_split in H1. injection H1 as Ha Hb Hc.
  apply str_inj in Ha, Hb, Hc. congruence.
Qed.

(** X3. The canonical string tells the versions apart: two triples of
    integers with the same string are the same triple, so a tag names one
    version only. *)
Theorem version_to_str_injective (v1 v2 : VersionTuple) :
  version_to_str v1 = version_to_str v2 -> v1 = v2.
Proof. exact (version_to_str_inj v1 v2). Qed.

Lemma version_to_str_injective_witness :
  version_to_str (1, 10, 0) = "1.10.0" /\ (1, 10, 0) = (1, 10, 0).
Proof.
  split; [reflexivity|].
  apply (version_to_str_injective (1, 10, 0) (1, 10, 0)). reflexivity.
Defined.

Lemma bump_version_lt (ver ver' : VersionTuple) (bump_level : BumpLevel) :
  bump_version ver bump_level = Ok ver' ->
  version_lt ver ver' /\ (valid_version ver -> valid_version ver').
Proof.
  destruct ver as [[a b] c]. unfold bump_version.
  destruct (String.eqb bump_level "major");
    [|destruct (String.eqb bump_level "minor");
      [|destruct (String.eqb bump_level "patch")]];
    intros [= <-]; unfold version_lt, valid_version; lia.
Qed.

(** X4. A bump goes up: whatever the level, the bumped version is above
    the prior one in the order of tuples, and a version without negative
    component stays one. *)
Theorem bump_version_increases (ver ver' : VersionTuple) (bump_level : BumpLevel) :
  bump_version ver bump_level = Ok ver' ->
  version_lt ver ver' /\ (valid_version ver -> valid_version ver').
Proof. exact (bump_version_lt ver ver' bump_level). Qed.

Lemma bump_version_increases_witness :
  bump_version (1, 9, 9) "minor" = Ok (1, 10, 0) /\
  version_lt (1, 9, 9) (1, 10, 0).
Proof.
  split; [reflexivity|].
  apply (bump_version_increases (1, 9, 9) (1, 10, 0) "minor"). reflexivity.
Defined.

(** X5. The string of a bumped version is never the string of the prior
    one: the tag and the commit message of a release differ from those of
    the version it starts from. *)
Theorem bump_version_new_string (ver ver' : VersionTuple) (bump_level : BumpLevel) :
  bump_version ver bump_level = Ok ver' ->
  version_to_str ver' <> version_to_str ver.
Proof.
  intros Hb Heq. apply version_to_str_inj in Heq. subst ver'.
  apply bump_version_lt in Hb. destruct Hb as [Hlt _].
  destruct ver as [[a b] c]. unfold version_lt in Hlt. lia.
Qed.

Lemma bump_version_new_string_witness :
  bump_version (0, 9, 9) "patch" = Ok (0, 9, 10) /\
  version_to_str (0, 9, 10) <> version_to_str (0, 9, 9).
Proof.
  split; [reflexivity|].
  apply (bump_version_new_string (0, 9, 9) (0, 9, 10) "patch"). reflexivity.
Defined.

(** X6. The canonical string of a version holds two dots, whatever the
    integers; without negative component it is made of digits and dots
    only: no sign, no blank, nothing a tag name could not hold. *)
Theorem version_to_str_shape (ver : VersionTuple) :
  count_char "." (version_to_str ver) = 2%nat /\
  (valid_version ver -> Py.all_chars digit_or_dot (version_to_str ver) = true).
Proof.
  destruct ver as [[a b] c]. rewrite version_to_str_app. split.
  - rewrite count_char_app. cbn [count_char]. rewrite Ascii.eqb_refl.
    rewrite count_char_app. cbn [count_char]. rewrite Ascii.eqb_refl.
    rewrite !(count_char_absent "." _ (str_no_dot _)). reflexivity.
  - intros (Ha & Hb & Hc).
    assert (Hd : forall n, (0 <= n)%Z ->
                   Py.all_chars digit_or_dot (Py.str n) = true).
    { intros n Hn. apply all_chars_weaken with (p := Py.is_digit);
        [|now apply str_digits].
      intros x Hx. unfold digit_or_dot. now rewrite Hx. }
    rewrite all_chars_app. cbn [Py.all_chars].
    rewrite all_chars_app. cbn [Py.all_chars].
    rewrite !Hd by assumption. reflexivity.
Qed.

Lemma version_to_str_shape_witness :
  valid_version (12, 0, 7) /\
  Py.all_chars digit_or_dot (version_to_str (12, 0, 7)) = true.
Proof.
  assert (H : valid_version (12, 0, 7)) by (unfold valid_version; lia).
  split; [exact H|].
  apply (proj2 (version_to_str_shape (12, 0, 7)) H).
Defined.

(** ** The writer and the reader, step by step *)

Lemma update_ok_world prior_ver new_ver w w' :
  update_info_toml_version prior_ver new_ver w = (Ok tt, w') ->
  exists content i,
    info_toml (disk w) = Some content /\
    Py.occurrences (version_to_str prior_ver) content = [i] /\
    w' = written w (swapped (version_to_str prior_ver) content i
                            (version_to_str new_ver)) new_ver /\
    repo (disk w') = repo (disk w) /\ files (disk w') = files (disk w).
Proof.
  intros H. destruct (info_toml (disk w)) as [content|] eqn:Hfile.
  - rewrite (update_cases _ _ _ _ Hfile) in H.
    destruct (Py.occurrences (version_to_str prior_ver) content)
      as [|i [|j rest]] eqn:E; try discriminate.
    injection H as <-. exists content, i.
    split; [reflexivity|]. split; [exact E|]. repeat split.
  - rewrite (update_missing _ _ _ Hfile) in H. discriminate.
Qed.

(** X7. The writer succeeds only on a manifest that holds the string of
    the prior version exactly once: then it writes once, the swapped text,
    logs once, and leaves the repository and the other files alone. *)
Theorem update_ok_only_if_unique prior_ver new_ver w w' :
  update_info_toml_version prior_ver new_ver w = (Ok tt, w') ->
  exists content i,
    info_toml (disk w) = Some content /\
    Py.occurrences (version_to_str prior_ver) content = [i] /\
    w' = written w (swapped (version_to_str prior_ver) content i
                            (version_to_str new_ver)) new_ver /\
    repo (disk w') = repo (disk w) /\ files (disk w') = files (disk w).
Proof. exact (update_ok_world prior_ver new_ver w w'). Qed.

Lemma update_ok_only_if_unique_witness :
  let w := Demo.world (Some (Demo.manifest "plugin" "0.1.0")) None in
  let w' := written w (Demo.manifest "plugin" "0.2.0") (0, 2, 0) in
  update_info_toml_version (0, 1, 0) (0, 2, 0) w = (Ok tt, w') /\
  exists i,
    Py.occurrences (version_to_str (0, 1, 0)) (Demo.manifest "plugin" "0.1.0") = [i].
Proof.
  intros w w'.
  assert (H : update_info_toml_version (0, 1, 0) (0, 2, 0) w = (Ok tt, w'))
    by reflexivity.
  split; [exact H|].
  destruct (update_ok_only_if_unique _ _ _ _ H) as (content & i & Hf & Ho & _).
  simpl in Hf. injection Hf as <-. exists i. exact Ho.
Defined.

Section ReaderSteps.

Variable E : Externals.

(** The reader by the state of the manifest: missing, unparsed, parsed. *)
Lemma read_missing w :
  info_toml (disk w) = None ->
  read_info_toml_version E w = (Raise MissingManifest, w).
Proof.
  intros H. unfold read_info_toml_version, bind, info_toml_exists.
  now rewrite H.
Qed.

Lemma read_unparsed w content e :
  info_toml (disk w) = Some content ->
  toml_loads E content = Raise e ->
  read_info_toml_version E w = (Raise e, w).
Proof.
  intros Hw Hl.
  unfold read_info_toml_version, toml_load, bind, info_toml_exists,
    info_toml_read_text, lift.
  rewrite Hw. cbn [negb]. rewrite Hw, Hl. reflexivity.
Qed.

Lemma read_parsed w content info :
  info_toml (disk w) = Some content ->
  toml_loads E content = Ok info ->
  read_info_toml_version E w
  = match getitem (TTable info) "meta" with
    | Raise e => (Raise e, w)
    | Ok meta =>
        match getitem meta "version" with
        | Raise e => (Raise e, w)
        | Ok version =>
            match getitem meta "name" with
            | Raise e => (Raise e, w)
            | Ok plugin_name =>
                (match version with
                 | TString s => version_from_str s
                 | _ => Raise AttributeError
                 end,
                 mkWorld (disk w)
                         (history w ++ [Logged (LogRead plugin_name version)]))
            end
        end
    end.
Proof.
  intros Hw Hl.
  unfold read_info_toml_version, toml_load, bind, info_toml_exists,
    info_toml_read_text, lift.
  rewrite Hw. cbn [negb]. rewrite Hw, Hl.
  destruct (getitem (TTable info) "meta") as [meta|e]; [|reflexivity].
  destruct (getitem meta "version") as [version|e]; [|reflexivity].
  destruct (getitem meta "name") as [plugin_name|e]; [|reflexivity].
  unfold logging_info, emit, raise.
  destruct version; reflexivity.
Qed.

Lemma getitem_ok value key v :
  getitem value key = Ok v ->
  exists entries, value = TTable entries /\ assoc key entries = Some v.
Proof.
  unfold getitem. destruct value as [| | | |entries|]; try discriminate.
  destruct (assoc key entries) as [x|] eqn:Hx; [|discriminate].
  intros [= <-]. now exists entries.
Qed.

End ReaderSteps.

Lemma read_world E w :
  disk (snd (read_info_toml_version E w)) = disk w /\
  (history (snd (read_info_toml_version E w)) = history w \/
   exists plugin_name version,
     history (snd (read_info_toml_version E w))
     = (history w ++ [Logged (LogRead plugin_name version)])%list).
Proof.
  destruct (info_toml (disk w)) as [content|] eqn:Hw.
  - destruct (toml_loads E content) as [info|e] eqn:Hl.
    + rewrite (read_parsed E w content info Hw Hl).
      destruct (getitem (TTable info) "meta") as [meta|e]; [|now split; [|left]].
      destruct (getitem meta "version") as [version|e]; [|now split; [|left]].
      destruct (getitem meta "name") as [plugin_name|e]; [|now split; [|left]].
      split; [reflexivity|]. right. now exists plugin_name, version.
    + rewrite (read_unparsed E w content e Hw Hl). now split; [|left].
  - rewrite (read_missing E w Hw). now split; [|left].
Qed.

(** X8. The reader is read-only: whatever the manifest, the parser and the
    outcome, the working directory is as it was, and the history grows by
    nothing or by the one log record of the read. *)
Theorem read_is_read_only E w :
  disk (snd (read_info_toml_version E w)) = disk w /\
  (history (snd (read_info_toml_version E w)) = history w \/
   exists plugin_name version,
     history (snd (read_info_toml_version E w))
     = (history w ++ [Logged (LogRead plugin_name version)])%list).
Proof. exact (read_world E w). Qed.

Lemma read_ok_world E w ver w' :
  read_info_toml_version E w = (Ok ver, w') ->
  exists content info meta plugin_name s,
    info_toml (disk w) = Some content /\
    toml_loads E content = Ok info /\
    assoc "meta" info = Some (TTable meta) /\
    assoc "version" meta = Some (TString s) /\
    assoc "name" meta = Some plugin_name /\
    version_from_str s = Ok ver /\
    w' = mkWorld (disk w)
                 (history w ++ [Logged (LogRead plugin_name (TString s))]).
Proof.
  intros H. destruct (info_toml (disk w)) as [content|] eqn:Hw;
    [|rewrite (read_missing E w Hw) in H; discriminate].
  destruct (toml_loads E content) as [info|e] eqn:Hl;
    [|rewrite (read_unparsed E w content e Hw Hl) in H; discriminate].
  rewrite (read_parsed E w content info Hw Hl) in H.
  destruct (getitem (TTable info) "meta") as [meta|e] eqn:Hm; [|discriminate].
  destruct (getitem meta "version") as [version|e] eqn:Hv; [|discriminate].
  destruct (getitem meta "name") as [plugin_name|e] eqn:Hn; [|discriminate].
  apply getitem_ok in Hm. destruct Hm as (entries0 & [= <-] & Hm).
  apply getitem_ok in Hv. destruct Hv as (entries & -> & Hv).
  apply getitem_ok in Hn. destruct Hn as (entries' & [= <-] & Hn).
  destruct version as [s| | | | |]; try discriminate.
  injection H as Hs <-.
  exists content, info, entries, plugin_name, s. repeat split; assumption.
Qed.

(** X9. What a version returned by the reader tells: the manifest is
    there, it parses, its [meta] table holds a [name] and a [version] that
    is a string, the version is what [version_from_str] makes of that
    string, and the read is logged once. *)
Theorem read_ok_inversion E w ver w' :
  read_info_toml_version E w = (Ok ver, w') ->
  exists content info meta plugin_name s,
    info_toml (disk w) = Some content /\
    toml_loads E content = Ok info /\
    assoc "meta" info = Some (TTable meta) /\
    assoc "version" meta = Some (TString s) /\
    assoc "name" meta = Some plugin_name /\
    version_from_str s = Ok ver /\
    w' = mkWorld (disk w)
                 (history w ++ [Logged (LogRead plugin_name (TString s))]).
Proof. exact (read_ok_world E w ver w'). Qed.

Lemma read_ok_inversion_witness :
  let E := Demo.externals Demo.done None in
  let w := Demo.world (Some (Demo.manifest "plugin" "0.1.0")) None in
  read_info_toml_version E w
  = (Ok (0, 1, 0),
     mkWorld (disk w) [Logged (LogRead (TString "plugin") (TString "0.1.0"))]) /\
  exists s, version_from_str s = Ok (0, 1, 0).
Proof.
  intros E w.
  assert (H : read_info_toml_version E w
              = (Ok (0, 1, 0),
                 mkWorld (disk w)
                   [Logged (LogRead (TString "plugin") (TString "0.1.0"))]))
    by reflexivity.
  split; [exact H|].
  destruct (read_ok_inversion _ _ _ _ H)
    as (content & info & meta & n & s & _ & _ & _ & _ & _ & Hs & _).
  now exists s.
Defined.

(** X10. The reader logs before it checks: a manifest with both entries
    whose version is no string, or a string that [version_from_str]
    rejects, leaves its log record and then raises. *)
Theorem read_logs_then_rejects E w content info meta plugin_name version :
  info_toml (disk w) = Some content ->
  toml_loads E content = Ok info ->
  assoc "meta" info = Some (TTable meta) ->
  assoc "version" meta = Some version ->
  assoc "name" meta = Some plugin_name ->
  (forall s, version = TString s -> exists e, version_from_str s = Raise e) ->
  exists e,
    read_info_toml_version E w
    = (Raise e,
       mkWorld (disk w) (history w ++ [Logged (LogRead plugin_name version)])).
Proof.
  intros Hw Hl Hm Hv Hn Hbad.
  rewrite (read_parsed E w content info Hw Hl).
  unfold getitem. rewrite Hm, Hv, Hn.
  destruct version as [s| | | | |]; try (now exists AttributeError).
  destruct (Hbad s eq_refl) as (e & ->). now exists e.
Qed.

Lemma read_logs_then_rejects_witness :
  let content := "two parts" in
  let info := [("meta", TTable [("name", TString "plugin"); ("version", TString "1.2")])] in
  let E := mkExternals (fun _ => Ok info) Demo.git (Demo.build Demo.done None) in
  let w := Demo.world (Some content) None in
  read_info_toml_version E w
  = (Raise (Exception "expected version to be of the form X.Y.Z"),
     mkWorld (disk w) [Logged (LogRead (TString "plugin") (TString "1.2"))]).
Proof.
  intros content info E w.
  assert (Hbad : forall s, TString "1.2" = TString s ->
                   exists e, version_from_str s = Raise e)
    by (intros s [= <-]; eexists; reflexivity).
  destruct (read_logs_then_rejects E w content info
              [("name", TString "plugin"); ("version", TString "1.2")]
              (TString "plugin") (TString "1.2")
              eq_refl eq_refl eq_refl eq_refl eq_refl Hbad) as (e & He).
  rewrite He. vm_compute in He. injection He as <-. reflexivity.
Defined.

(** ** The two commits *)

(** X11. [git_commit_version] runs add, commit and tag in this order and
    stops at the first command that fails.  Without a repository it raises
    before any command.  With one: if the add fails, its exception is
    raised and only the add is in the history; if the commit fails, its
    exception is raised after add and commit, and no tag is tried; if the
    tag fails, its exception is raised after the three; if all three go
    through, it returns and the log record follows them.  The working
    directory is each time as the last command run left it. *)
Theorem git_commit_version_commands E prior_ver ver w :
  let add := GitAdd "info.toml" in
  let commit := GitCommit ("Version: " ++ version_to_str ver) in
  let tag := GitTag (version_to_str ver) in
  (repo (disk w) = None ->
   git_commit_version E prior_ver ver w = (Raise InvalidGitRepositoryError, w)) /\
  (repo (disk w) <> None ->
   (forall e d1,
      git_run E add (disk w) = (Raise e, d1) ->
      git_commit_version E prior_ver ver w
      = (Raise e, mkWorld d1 (history w ++ [GitRan add]))) /\
   (forall d1 e d2,
      git_run E add (disk w) = (Ok tt, d1) ->
      git_run E commit d1 = (Raise e, d2) ->
      git_commit_version E prior_ver ver w
      = (Raise e, mkWorld d2 (history w ++ [GitRan add; GitRan commit]))) /\
   (forall d1 d2 e d3,
      git_run E add (disk w) = (Ok tt, d1) ->
      git_run E commit d1 = (Ok tt, d2) ->
      git_run E tag d2 = (Raise e, d3) ->
      git_commit_version E prior_ver ver w
      = (Raise e, mkWorld d3 (history w ++ [GitRan add; GitRan commit; GitRan tag]))) /\
   (forall d1 d2 d3,
      git_run E add (disk w) = (Ok tt, d1) ->
      git_run E commit d1 = (Ok tt, d2) ->
      git_run E tag d2 = (Ok tt, d3) ->
      git_commit_version E prior_ver ver w
      = (Ok tt,
         mkWorld d3
           (history w ++ [GitRan add; GitRan commit; GitRan tag;
                          Logged (LogCommitted (version_to_str prior_ver)
                                               (version_to_str ver))])))).
Proof.
  intros add commit tag.
  unfold git_commit_version, git_get_repo, Repo_curdir, bind, repo_git,
    logging_info, emit. fold add commit tag.
  destruct (repo (disk w)) as [r|]; cbn [disk history fst snd].
  2:{ split; [reflexivity | congruence]. }
  split; [discriminate|]. intros _.
  split; [|split; [|split]].
  - intros e d1 ->. reflexivity.
  - intros d1 e d2 ->. cbn [disk history]. intros ->.
    cbn [disk history]. now rewrite <- !List.app_assoc.
  - intros d1 d2 e d3 ->. cbn [disk history]. intros ->.
    cbn [disk history]. intros ->. cbn [disk history].
    now rewrite <- !List.app_assoc.
  - intros d1 d2 d3 ->. cbn [disk history]. intros ->.
    cbn [disk history]. intros ->. cbn [disk history].
    now rewrite <- !List.app_assoc.
Qed.

(** X12. [git_commit_new_release] runs add of the artifacts and commit in
    this order and stops at the first command that fails.  Without a
    repository it raises before any command.  With one: if the add fails,
    as [git] does when no file matches, its exception is raised and
    nothing is committed; if the commit fails, its exception is raised
    and nothing is logged; it returns, and logs the release, exactly when
    both commands went through. *)
Theorem git_commit_new_release_commands E ver w :
  let add := GitAdd "./*.op" in
  let commit := GitCommit ("Release: " ++ version_to_str ver) in
  (repo (disk w) = None ->
   git_commit_new_release E ver w = (Raise InvalidGitRepositoryError, w)) /\
  (repo (disk w) <> None ->
   (forall e d1,
      git_run E add (disk w) = (Raise e, d1) ->
      git_commit_new_release E ver w
      = (Raise e, mkWorld d1 (history w ++ [GitRan add]))) /\
   (forall d1 e d2,
      git_run E add (disk w) = (Ok tt, d1) ->
      git_run E commit d1 = (Raise e, d2) ->
      git_commit_new_release E ver w
      = (Raise e, mkWorld d2 (history w ++ [GitRan add; GitRan commit]))) /\
   (forall d1 d2,
      git_run E add (disk w) = (Ok tt, d1) ->
      git_run E commit d1 = (Ok tt, d2) ->
      git_commit_new_release E ver w
      = (Ok tt,
         mkWorld d2
           (history w ++ [GitRan add; GitRan commit;
                          Logged (LogRelease (version_to_str ver))]))) /\
   (forall w', git_commit_new_release E ver w = (Ok tt, w') ->
      exists d1 d2,
        git_run E add (disk w) = (Ok tt, d1) /\
        git_run E commit d1 = (Ok tt, d2))).
Proof.
  intros add commit.
  unfold git_commit_new_release, git_get_repo, Repo_curdir, bind, repo_git,
    logging_info, emit. fold add commit.
  destruct (repo (disk w)) as [r|]; cbn [disk history fst snd].
  2:{ split; [reflexivity | congruence]. }
  split; [discriminate|]. intros _.
  split; [|split; [|split]].
  - intros e d1 ->. reflexivity.
  - intros d1 e d2 ->. cbn [disk history]. intros ->.
    cbn [disk history]. now rewrite <- !List.app_assoc.
  - intros d1 d2 ->. cbn [disk history]. intros ->.
    cbn [disk history]. now rewrite <- !List.app_assoc.
  - intros w'.
    destruct (git_run E add (disk w)) as [[[]|e1] d1]; [|discriminate].
    cbn [disk history].
    destruct (git_run E commit d1) as [[[]|e2] d2] eqn:H2; [|discriminate].
    intros _. exists d1, d2. split; [reflexivity | exact H2].
Qed.

Lemma git_commit_new_release_commands_witness :
  let E := Demo.externals Demo.done (Some 1) in
  let w := Demo.world None (Some Demo.fresh_repo) in
  (repo (disk w) <> None /\
   git_run E (GitAdd "./*.op") (disk w) = (Raise (GitCommandError 128), disk w)) /\
  git_commit_new_release E (0, 1, 1) w
  = (Raise (GitCommandError 128), mkWorld (disk w) [GitRan (GitAdd "./*.op")]).
Proof.
  intros E w.
  assert (Hrepo : repo (disk w) <> None) by discriminate.
  split; [split; [exact Hrepo | reflexivity]|].
  destruct (proj2 (git_commit_new_release_commands E (0, 1, 1) w) Hrepo)
    as (Hadd & _).
  apply (Hadd (GitCommandError 128) (disk w)). reflexivity.
Defined.

Lemma git_commit_version_commands_witness :
  let E := Demo.externals Demo.done (Some 0) in
  let w := Demo.world (Some (Demo.manifest "plugin" "0.1.1")) (Some Demo.bare_repo) in
  (repo (disk w) <> None /\
   exists d1 d2 d3,
     git_run E (GitAdd "info.toml") (disk w) = (Ok tt, d1) /\
     git_run E (GitCommit "Version: 0.1.0") d1 = (Ok tt, d2) /\
     git_run E (GitTag "0.1.0") d2 = (Raise (GitCommandError 128), d3)) /\
  fst (git_commit_version E (0, 0, 9) (0, 1, 0) w) = Raise (GitCommandError 128) /\
  history (snd (git_commit_version E (0, 0, 9) (0, 1, 0) w))
  = [GitRan (GitAdd "info.toml"); GitRan (GitCommit "Version: 0.1.0");
     GitRan (GitTag "0.1.0")].
Proof.
  intros E w.
  assert (Hrepo : repo (disk w) <> None) by discriminate.
  split; [split; [exact Hrepo|]; do 3 eexists; repeat split; reflexivity|].
  destruct (proj2 (git_commit_version_commands E (0, 0, 9) (0, 1, 0) w) Hrepo)
    as (_ & _ & Htag & _).
  rewrite (Htag _ _ (GitCommandError 128) _ eq_refl eq_refl eq_refl).
  split; reflexivity.
Defined.

(** ** The build, by its output *)

Lemma decode_ascii bs :
  forallb is_ascii bs = true -> decode_utf8 bs = Some (map Byte.to_N bs).
Proof.
  induction bs as [|b bs IH]; [reflexivity|].
  cbn [forallb]. rewrite andb_true_iff. intros [Hb Hbs].
  cbn [decode_utf8 map]. unfold is_ascii in Hb. rewrite Hb, (IH Hbs).
  reflexivity.
Qed.

(** X13. A build that prints ASCII only, or nothing at all, cannot make
    [build_plugin] raise: it returns, having logged the output character
    by character and the return code as it found it. *)
Theorem build_plugin_ascii E ver w out code d' :
  build_sh E (disk w) = (mkPopen out code, d') ->
  forallb is_ascii out = true ->
  build_plugin E ver w
  = (Ok tt,
     mkWorld d' (history w ++ [Spawned; Logged (LogOutput (map Byte.to_N out));
                               Logged (LogBuilt (version_to_str ver) code)])).
Proof.
  intros Hb Hascii.
  unfold build_plugin, bind, popen_build. rewrite Hb.
  cbn [stdout_read returncode]. rewrite (decode_ascii out Hascii).
  unfold logging_info, emit. cbn [disk history].
  now rewrite <- !List.app_assoc.
Qed.

Lemma build_plugin_ascii_witness :
  let E := Demo.externals [] (Some 3) in
  let w := Demo.world None None in
  (build_sh E (disk w) = (mkPopen [] (Some 3), mkDisk None None ["plugin.op"]) /\
   forallb is_ascii [] = true) /\
  build_plugin E (0, 1, 1) w
  = (Ok tt,
     mkWorld (mkDisk None None ["plugin.op"])
       [Spawned; Logged (LogOutput []); Logged (LogBuilt "0.1.1" (Some 3))]).
Proof.
  intros E w. split; [split; reflexivity|].
  apply (build_plugin_ascii E (0, 1, 1) w [] (Some 3)
           (mkDisk None None ["plugin.op"])); reflexivity.
Defined.

(** X14. [build_plugin] raises nothing but [UnicodeDecodeError], and that
    exactly when the output of the build is not UTF-8; by then the build
    has run: what it did to the working directory stays, and the history
    holds the spawn and no log record. *)
Theorem build_plugin_outcome E ver w :
  disk (snd (build_plugin E ver w)) = snd (build_sh E (disk w)) /\
  (forall e, fst (build_plugin E ver w) = Raise e ->
     e = UnicodeDecodeError /\
     history (snd (build_plugin E ver w)) = (history w ++ [Spawned])%list) /\
  (fst (build_plugin E ver w) = Raise UnicodeDecodeError <->
   decode_utf8 (stdout_read (fst (build_sh E (disk w)))) = None).
Proof.
  unfold build_plugin, bind, popen_build.
  destruct (build_sh E (disk w)) as [p d'].
  cbn [fst snd]. destruct (decode_utf8 (stdout_read p)) as [text|];
    unfold logging_info, emit, raise; cbn [fst snd disk history].
  - split; [reflexivity|]. split; [intros e [=]|]. split; discriminate.
  - split; [reflexivity|]. split; [intros e [= <-]; now split|]. now split.
Qed.

Lemma build_plugin_outcome_witness :
  let E := Demo.externals [xc3]%byte (Some 0) in
  let w := Demo.world None None in
  decode_utf8 [xc3]%byte = None /\
  build_plugin E (0, 1, 1) w
  = (Raise UnicodeDecodeError, mkWorld (mkDisk None None ["plugin.op"]) [Spawned]).
Proof.
  intros E w. split; [reflexivity|].
  destruct (build_plugin_outcome E (0, 1, 1) w) as (Hd & Hr & _).
  destruct (Hr UnicodeDecodeError eq_refl) as [_ Hh].
  destruct (build_plugin E (0, 1, 1) w) as [r w'] eqn:Hrun.
  vm_compute in Hrun. injection Hrun as <- <-. reflexivity.
Defined.

(** ** The release, end to end *)

Section ReleaseSteps.

Local Open Scope list_scope.

Lemma bind_call_unfold {A B} f (body : M A) (k : A -> M B) w :
  bind (call f body) k w
  = match body (mkWorld (disk w) (history w ++ [Enter f])) with
    | (Ok a, w1) => k a (mkWorld (disk w1) (history w1 ++ [Return f]))
    | (Raise e, w1) => (Raise e, mkWorld (disk w1) (history w1 ++ [Raised f e]))
    end.
Proof.
  unfold bind, call.
  destruct (body (mkWorld (disk w) (history w ++ [Enter f]))) as [[a|e] w1];
    reflexivity.
Qed.

Lemma bind_call_ok {A B} f (body : M A) (k : A -> M B) w b w' :
  bind (call f body) k w = (Ok b, w') ->
  exists a w1,
    body (mkWorld (disk w) (history w ++ [Enter f])) = (Ok a, w1) /\
    k a (mkWorld (disk w1) (history w1 ++ [Return f])) = (Ok b, w').
Proof.
  rewrite bind_call_unfold.
  destruct (body (mkWorld (disk w) (history w ++ [Enter f]))) as [[a|e] w1];
    [|discriminate].
  intros H. now exists a, w1.
Qed.

Lemma call_ok {A} f (body : M A) w a w' :
  call f body w = (Ok a, w') ->
  exists w1,
    body (mkWorld (disk w) (history w ++ [Enter f])) = (Ok a, w1) /\
    w' = mkWorld (disk w1) (history w1 ++ [Return f]).
Proof.
  unfold call.
  destruct (body (mkWorld (disk w) (history w ++ [Enter f]))) as [[x|e] w1];
    [|discriminate].
  intros [= <- <-]. now exists w1.
Qed.

Variable E : Externals.

Lemma git_commit_version_ok prior_ver ver w w' :
  git_commit_version E prior_ver ver w = (Ok tt, w') ->
  exists d,
    w' = mkWorld d
           (history w ++ map GitRan (version_commands ver)
              ++ [Logged (LogCommitted (version_to_str prior_ver)
                                       (version_to_str ver))]).
Proof.
  unfold git_commit_version, git_get_repo, Repo_curdir, bind, repo_git,
    logging_info, emit, version_commands.
  destruct (repo (disk w)) as [r|]; cbn [disk history]; [|discriminate].
  destruct (git_run E (GitAdd "info.toml") (disk w)) as [[[]|e1] d1];
    cbn [disk history]; [|discriminate].
  destruct (git_run E (GitCommit ("Version: " ++ version_to_str ver)) d1)
    as [[[]|e2] d2]; cbn [disk history]; [|discriminate].
  destruct (git_run E (GitTag (version_to_str ver)) d2) as [[[]|e3] d3];
    cbn [disk history]; [|discriminate].
  intros [= <-]. exists d3. cbn. now rewrite <- !List.app_assoc.
Qed.

Lemma git_commit_new_release_ok ver w w' :
  git_commit_new_release E ver w = (Ok tt, w') ->
  exists d,
    w' = mkWorld d
           (history w ++ map GitRan (release_commands ver)
              ++ [Logged (LogRelease (version_to_str ver))]).
Proof.
  unfold git_commit_new_release, git_get_repo, Repo_curdir, bind, repo_git,
    logging_info, emit, release_commands.
  destruct (repo (disk w)) as [r|]; cbn [disk history]; [|discriminate].
  destruct (git_run E (GitAdd "./*.op") (disk w)) as [[[]|e1] d1];
    cbn [disk history]; [|discriminate].
  destruct (git_run E (GitCommit ("Release: " ++ version_to_str ver)) d1)
    as [[[]|e2] d2]; cbn [disk history]; [|discriminate].
  intros [= <-]. exists d2. cbn. now rewrite <- !List.app_assoc.
Qed.

Lemma build_plugin_ok ver w w' :
  build_plugin E ver w = (Ok tt, w') ->
  exists d text code,
    w' = mkWorld d
           (history w ++ [Spawned; Logged (LogOutput text);
                          Logged (LogBuilt (version_to_str ver) code)]).
Proof.
  unfold build_plugin, bind, popen_build.
  destruct (build_sh E (disk w)) as [p d].
  destruct (decode_utf8 (stdout_read p)) as [text|]; [|discriminate].
  unfold logging_info, emit. cbn [disk history]. intros [= <-].
  exists d, text, (returncode p). now rewrite <- !List.app_assoc.
Qed.

End ReleaseSteps.

(** X15. A release that returns has done all of this and nothing else, in
    this order: checked the repository, read and logged the version,
    bumped it, written the manifest with the string of the read version
    swapped for that of the bumped one, staged, committed and tagged it
    under the bumped version, run the build once and logged its output and
    return code, staged and committed the artifacts. *)
Theorem release_success_history E bump_level w w' :
  run_release E bump_level w = (Ok tt, w') ->
  exists plugin_name s prior_ver ver content i text code,
    info_toml (disk w) = Some content /\
    version_from_str s = Ok prior_ver /\
    bump_version prior_ver bump_level = Ok ver /\
    Py.occurrences (version_to_str prior_ver) content = [i] /\
    history w'
    = (history w
       ++ [Enter F_git_check_in_repo; Return F_git_check_in_repo;
           Enter F_read_info_toml_version;
           Logged (LogRead plugin_name (TString s));
           Return F_read_info_toml_version;
           Enter F_bump_version; Return F_bump_version;
           Enter F_update_info_toml_version;
           Wrote (swapped (version_to_str prior_ver) content i
                          (version_to_str ver));
           Logged (LogWrote (version_to_str ver));
           Return F_update_info_toml_version;
           Enter F_git_commit_version]
       ++ map GitRan (version_commands ver)
       ++ [Logged (LogCommitted (version_to_str prior_ver) (version_to_str ver));
           Return F_git_commit_version;
           Enter F_build_plugin; Spawned; Logged (LogOutput text);
           Logged (LogBuilt (version_to_str ver) code);
           Return F_build_plugin;
           Enter F_git_commit_new_release]
       ++ map GitRan (release_commands ver)
       ++ [Logged (LogRelease (version_to_str ver));
           Return F_git_commit_new_release])%list.
Proof.
  rewrite run_release_unfold, call_check.
  destruct (repo (disk w)) as [r|]; [|discriminate].
  destruct (bare r); cbn [negb]; [discriminate|].
  intros H.
  apply bind_call_ok in H. destruct H as (prior_ver & w2 & Hread & H).
  apply read_ok_world in Hread.
  destruct Hread as (content & info & meta & plugin_name & s
                     & Hfile & _ & _ & _ & _ & Hs & ->).
  cbn [disk history] in *.
  apply bind_call_ok in H. destruct H as (ver & w3 & Hbump & H).
  unfold lift in Hbump. injection Hbump as Hbump <-.
  cbn [disk history] in H.
  apply bind_call_ok in H. destruct H as ([] & w4 & Hupd & H).
  apply update_ok_world in Hupd.
  destruct Hupd as (content' & i & Hfile' & Honce & -> & _).
  cbn [disk] in Hfile'. rewrite Hfile in Hfile'. injection Hfile' as <-.
  unfold written in H. cbn [disk history] in H.
  apply bind_call_ok in H. destruct H as ([] & w5 & Hcv & H).
  apply git_commit_version_ok in Hcv. destruct Hcv as (d5 & ->).
  cbn [disk history] in H.
  apply bind_call_ok in H. destruct H as ([] & w6 & Hbuild & H).
  apply build_plugin_ok in Hbuild. destruct Hbuild as (d6 & text & code & ->).
  cbn [disk history] in H.
  apply call_ok in H. destruct H as (w7 & Hcr & ->).
  apply git_commit_new_release_ok in Hcr. destruct Hcr as (d7 & ->).
  exists plugin_name, s, prior_ver, ver, content, i, text, code.
  repeat (split; [assumption|]).
  cbn [disk history map version_commands release_commands].
  repeat rewrite <- List.app_assoc. reflexivity.
Qed.

Lemma release_success_history_witness :
  let E := Demo.externals Demo.done (Some 2) in
  let w := Demo.world (Some (Demo.manifest "plugin" "0.1.0")) (Some Demo.fresh_repo) in
  fst (run_release E "minor" w) = Ok tt /\
  exists prior_ver ver,
    bump_version prior_ver "minor" = Ok ver /\
    In (GitRan (GitTag (version_to_str ver)))
       (history (snd (run_release E "minor" w))).
Proof.
  intros E w. split; [reflexivity|].
  assert (H : run_release E "minor" w = (Ok tt, snd (run_release E "minor" w)))
    by reflexivity.
  destruct (release_success_history _ _ _ _ H)
    as (n & s & prior_ver & ver & content & i & text & code
        & _ & _ & Hbump & _ & Hh).
  exists prior_ver, ver. split; [exact Hbump|].
  rewrite Hh. cbn [history w Demo.world app map version_commands].
  do 14 right. now left.
Defined.

(** X16. A release asked for at a level that is none of the three fails
    without changing anything: the working directory is as it was and the
    history holds no write, no [git] command and no build; where the
    reader has returned, the exception is the one of [bump_version]. *)
Theorem invalid_level_changes_nothing E bump_level w :
  bump_level <> "major" -> bump_level <> "minor" -> bump_level <> "patch" ->
  exists e tr,
    run_release E bump_level w = (Raise e, mkWorld (disk w) (history w ++ tr)) /\
    existsb is_mutation tr = false /\
    (In (Return F_read_info_toml_version) tr ->
     e = Exception ("bump_level provided was " ++ bump_level
                    ++ ", which is an invalid choice.")).
Proof.
  intros H1 H2 H3. rewrite run_release_unfold, call_check.
  destruct (repo (disk w)) as [r|].
  2:{ do 2 eexists. split; [reflexivity|]. split; [reflexivity|].
      simpl. intuition discriminate. }
  destruct (bare r); cbn [negb].
  { do 2 eexists. split; [reflexivity|]. split; [reflexivity|].
    simpl. intuition discriminate. }
  rewrite bind_call_unfold. cbn [disk history].
  match goal with |- context [read_info_toml_version E ?w1] =>
    pose proof (read_world E w1) as [Hd Hh];
    destruct (read_info_toml_version E w1) as [[prior_ver|e] [d2 h2]]
  end; cbn [fst snd disk history] in *; subst d2.
  - rewrite bind_call_unfold. unfold lift.
    rewrite (proj2 (bump_version_by_level prior_ver bump_level) H1 H2 H3).
    cbn [disk history].
    destruct Hh as [->|(n & v & ->)]; do 2 eexists;
      (split; [rewrite <- !List.app_assoc; reflexivity|]);
      (split; [reflexivity | intros _; reflexivity]).
  - destruct Hh as [->|(n & v & ->)]; do 2 eexists;
      (split; [rewrite <- !List.app_assoc; reflexivity|]);
      (split; [reflexivity | simpl; intuition discriminate]).
Qed.

Lemma invalid_level_changes_nothing_witness :
  let E := Demo.externals Demo.done (Some 0) in
  let w := Demo.world (Some (Demo.manifest "plugin" "0.1.0")) (Some Demo.fresh_repo) in
  ("build" <> "major" /\ "build" <> "minor" /\ "build" <> "patch") /\
  fst (run_release E "build" w)
  = Raise (Exception "bump_level provided was build, which is an invalid choice.") /\
  disk (snd (run_release E "build" w)) = disk w.
Proof.
  intros E w.
  assert (H : "build" <> "major" /\ "build" <> "minor" /\ "build" <> "patch")
    by (repeat split; discriminate).
  split; [exact H|]. destruct H as (H1 & H2 & H3).
  destruct (invalid_level_changes_nothing E "build" w H1 H2 H3)
    as (e & tr & Hrun & _ & _).
  rewrite Hrun. split; [|reflexivity].
  vm_compute in Hrun. injection Hrun as <- _. reflexivity.
Defined.

Section ReleaseOrder.

Local Open Scope list_scope.

Variable E : Externals.
Variable bump_level : BumpLevel.
Variable may_raise : fn -> exn -> Prop.

Hypothesis check_raises : may_raise F_git_check_in_repo InvalidGitRepositoryError.
Hypothesis read_raises :
  raises_only (may_raise F_read_info_toml_version) (read_info_toml_version E).
Hypothesis bump_raises : forall prior_ver,
  raises_only (may_raise F_bump_version) (lift (bump_version prior_ver bump_level)).
Hypothesis update_raises : forall prior_ver ver,
  raises_only (may_raise F_update_info_toml_version)
              (update_info_toml_version prior_ver ver).
Hypothesis commit_version_raises : forall prior_ver ver,
  raises_only (may_raise F_git_commit_version) (git_commit_version E prior_ver ver).
Hypothesis build_raises : forall ver,
  raises_only (may_raise F_build_plugin) (build_plugin E ver).
Hypothesis commit_release_raises : forall ver,
  raises_only (may_raise F_git_commit_new_release) (git_commit_new_release E ver).

(** The steps after the manifest is written. *)
Lemma after_update_runs prior_ver ver :
  runs may_raise [F_git_commit_version; F_build_plugin; F_git_commit_new_release]
    (call F_git_commit_version (git_commit_version E prior_ver ver) ;;
     call F_build_plugin (build_plugin E ver) ;;
     call F_git_commit_new_release (git_commit_new_release E ver)).
Proof.
  apply runs_bind; [apply effects_commit_version | apply commit_version_raises |].
  intros _.
  apply runs_bind; [apply effects_build | apply build_raises |].
  intros _.
  apply runs_last; [apply effects_commit_release | apply commit_release_raises].
Qed.

(** [run_release_history] with a say on what each step may raise. *)
Lemma run_release_history_by_step w :
  exists tr,
    history (snd (run_release E bump_level w)) = history w ++ tr /\
    (sequenced may_raise release_order tr
       (error_of (fst (run_release E bump_level w))) \/
     (fst (run_release E bump_level w) = Raise (Exception "not in a git repo!") /\
      tr = [Enter F_git_check_in_repo; Return F_git_check_in_repo])).
Proof.
  rewrite run_release_unfold, call_check.
  destruct (repo (disk w)) as [r|].
  - destruct (bare r); cbn [negb].
    + eexists. split; [reflexivity|]. right. now split.
    + match goal with |- context [?m (mkWorld ?d ?h)] =>
        assert (Hruns : runs may_raise (tl release_order) m)
      end.
      { apply runs_bind; [apply effects_read | apply read_raises |].
        intros prior_ver.
        apply runs_bind; [apply effects_lift | apply bump_raises |].
        intros ver.
        apply runs_bind; [apply effects_update | apply update_raises |].
        intros _. apply after_update_runs. }
      match goal with |- context [?m (mkWorld ?d ?h)] =>
        destruct (Hruns (mkWorld d h)) as (tr & Htr & Hseq)
      end.
      exists (Enter F_git_check_in_repo :: [] ++ Return F_git_check_in_repo :: tr).
      split.
      * rewrite Htr. simpl. now rewrite <- List.app_assoc.
      * left. apply sequenced_return; [reflexivity | exact Hseq].
  - eexists. split; [reflexivity|]. left.
    apply (sequenced_raise _ _ _ []); [reflexivity | exact check_raises].
Qed.

End ReleaseOrder.

Lemma sequenced_raised may_raise fs tr err f e :
  sequenced may_raise fs tr err -> In (Raised f e) tr -> may_raise f e.
Proof.
  induction 1 as [|f0 fs effs tr err He Hseq IH|f0 fs effs e0 He Hmay];
    intros Hin.
  - destruct Hin.
  - destruct Hin as [[=]|Hin]. apply in_app_or in Hin.
    destruct Hin as [Hin|[[=]|Hin]]; [|now apply IH].
    rewrite forallb_forall in He. apply He in Hin. discriminate.
  - destruct Hin as [[=]|Hin]. apply in_app_or in Hin.
    destruct Hin as [Hin|[[= <- <-]|[]]]; [|exact Hmay].
    rewrite forallb_forall in He. apply He in Hin. discriminate.
Qed.

(** X17. The commands [patch], [minor] and [major] of the command line
    pass a level that [bump_version] knows: in a release started by one of
    them the bump never raises, so that its exception for an invalid level
    is out of reach of the command line. *)
Theorem cli_bump_never_raises E (command : M unit) :
  In command [Cli.patch E; Cli.minor E; Cli.major E] ->
  forall w tr e,
    history (snd (command w)) = (history w ++ tr)%list ->
    ~ In (Raised F_bump_version e) tr.
Proof.
  intros Hcmd w tr e Htr Hin.
  assert (Hrun : exists bump_level,
             command = run_release E bump_level /\
             forall prior_ver, exists ver,
               bump_version prior_ver bump_level = Ok ver).
  { destruct Hcmd as [<-|[<-|[<-|[]]]];
      [exists "patch" | exists "minor" | exists "major"];
      (split; [reflexivity|]);
      intros [[a b] c]; eexists; reflexivity. }
  destruct Hrun as (bump_level & -> & Hok).
  destruct (run_release_history_by_step E bump_level
              (fun f _ => f <> F_bump_version)) with (w := w)
    as (tr0 & Htr0 & Hcases); try (intros; discriminate).
  - intros prior_ver w0 e0 w1. unfold lift.
    destruct (Hok prior_ver) as (ver & ->). discriminate.
  - rewrite Htr0 in Htr. apply List.app_inv_head in Htr. subst tr0.
    destruct Hcases as [Hseq|[_ ->]].
    + now apply (sequenced_raised _ _ _ _ _ _ Hseq Hin).
    + destruct Hin as [[=]|[[=]|[]]].
Qed.

Lemma cli_bump_never_raises_witness :
  let E := Demo.externals Demo.done (Some 0) in
  let w := Demo.world (Some (Demo.manifest "plugin" "0.1.0")) (Some Demo.fresh_repo) in
  In (Cli.major E) [Cli.patch E; Cli.minor E; Cli.major E] /\
  fst (Cli.major E w) = Ok tt /\
  ~ In (Raised F_bump_version MissingManifest) (history (snd (Cli.major E w))).
Proof.
  intros E w.
  assert (H : In (Cli.major E) [Cli.patch E; Cli.minor E; Cli.major E])
    by (right; right; now left).
  split; [exact H|]. split; [reflexivity|].
  apply (cli_bump_never_raises E (Cli.major E) H w
           (history (snd (Cli.major E w))) MissingManifest).
  reflexivity.
Defined.

Lemma update_raise_world prior_ver new_ver w e w' :
  update_info_toml_version prior_ver new_ver w = (Raise e, w') -> w' = w.
Proof.
  intros H. destruct (info_toml (disk w)) as [content|] eqn:Hfile.
  - rewrite (update_cases _ _ _ _ Hfile) in H.
    destruct (Py.occurrences (version_to_str prior_ver) content)
      as [|i [|j rest]]; congruence.
  - rewrite (update_missing _ _ _ Hfile) in H. congruence.
Qed.

(** X18. Whatever happens in a release, the first thing it changes is the
    manifest: if its part of the history holds a write, a [git] command or
    a build at all, the earliest of them is the write of the manifest.  No
    commit, tag or build comes before the new version is on disk. *)
Theorem manifest_written_first E bump_level w tr :
  history (snd (run_release E bump_level w)) = (history w ++ tr)%list ->
  find is_mutation tr = None \/
  exists content, find is_mutation tr = Some (Wrote content).
Proof.
  rewrite run_release_unfold, call_check.
  destruct (repo (disk w)) as [r|].
  2:{ cbn [snd history]. intros H%List.app_inv_head. subst tr. now left. }
  destruct (bare r); cbn [negb].
  { cbn [snd history]. intros H%List.app_inv_head. subst tr. now left. }
  rewrite bind_call_unfold. cbn [disk history].
  match goal with |- context [read_info_toml_version E ?w1] =>
    pose proof (read_world E w1) as [Hd Hh];
    destruct (read_info_toml_version E w1) as [[prior_ver|e] [d2 h2]]
  end; cbn [fst snd disk history] in *; subst d2.
  2:{ destruct Hh as [->|(n & v & ->)]; rewrite <- !List.app_assoc;
        intros H%List.app_inv_head; subst tr; now left. }
  rewrite bind_call_unfold. unfold lift. cbn [disk history].
  destruct (bump_version prior_ver bump_level) as [ver|e].
  2:{ cbn [snd history].
      destruct Hh as [->|(n & v & ->)]; rewrite <- !List.app_assoc;
        intros H%List.app_inv_head; subst tr; now left. }
  rewrite bind_call_unfold. cbn [disk history].
  match goal with |- context [update_info_toml_version prior_ver ver ?w3] =>
    destruct (update_info_toml_version prior_ver ver w3) as [[[]|e] w4] eqn:Hupd
  end.
  - apply update_ok_world in Hupd.
    destruct Hupd as (content & i & _ & _ & -> & _).
    unfold written. cbn [disk history].
    match goal with |- context [?m (mkWorld ?d ?h)] =>
      destruct (after_update_runs E anything) with
        (prior_ver := prior_ver) (ver := ver) (w := mkWorld d h)
        as (rest & Hrest & _); try (intros; intros ? ? ? _; exact I)
    end.
    rewrite Hrest. cbn [history].
    destruct Hh as [->|(n & v & ->)]; rewrite <- !List.app_assoc;
      intros H%List.app_inv_head; subst tr; right; eexists; reflexivity.
  - apply update_raise_world in Hupd. subst w4.
    cbn [snd disk history].
    destruct Hh as [->|(n & v & ->)]; rewrite <- !List.app_assoc;
      intros H%List.app_inv_head; subst tr; now left.
Qed.

Lemma manifest_written_first_witness :
  let E := Demo.externals Demo.done (Some 0) in
  let w := Demo.world (Some (Demo.manifest "plugin" "0.1.0")) (Some Demo.fresh_repo) in
  find is_mutation (history (snd (run_release E "patch" w)))
  = Some (Wrote (Demo.manifest "plugin" "0.1.1")).
Proof.
  intros E w.
  destruct (manifest_written_first E "patch" w
              (history (snd (run_release E "patch" w))) eq_refl)
    as [H|(content & H)]; rewrite H; vm_compute in H;
    [discriminate | injection H as <-; reflexivity].
Defined.

(** ** No way back *)

Section KeepsManifest.

Local Open Scope list_scope.

Lemma keeps_ret {A} (a : A) : keeps_manifest (ret a).
Proof.
  intros w. split; [reflexivity|]. exists []. split; [|intros c []].
  simpl. now rewrite List.app_nil_r.
Qed.

Lemma keeps_raise {A} e : keeps_manifest (@raise A e).
Proof.
  intros w. split; [reflexivity|]. exists []. split; [|intros c []].
  simpl. now rewrite List.app_nil_r.
Qed.

Lemma keeps_bind {A B} (m : M A) (k : A -> M B) :
  keeps_manifest m -> (forall a, keeps_manifest (k a)) ->
  keeps_manifest (bind m k).
Proof.
  intros Hm Hk w. destruct (Hm w) as (Hd1 & tr1 & Hh1 & Hn1). unfold bind.
  destruct (m w) as [[a|e] w1]; cbn [fst snd] in *.
  - destruct (Hk a w1) as (Hd2 & tr2 & Hh2 & Hn2). split; [congruence|].
    exists (tr1 ++ tr2). split; [now rewrite Hh2, Hh1, List.app_assoc|].
    intros c [H|H]%in_app_or; [now apply (Hn1 c) | now apply (Hn2 c)].
  - split; [assumption|]. now exists tr1.
Qed.

Lemma keeps_call {A} f (body : M A) :
  keeps_manifest body -> keeps_manifest (call f body).
Proof.
  intros Hb w.
  destruct (Hb (mkWorld (disk w) (history w ++ [Enter f])))
    as (Hd & tr & Hh & Hn).
  unfold call.
  destruct (body (mkWorld (disk w) (history w ++ [Enter f]))) as [[a|e] w1];
    cbn [fst snd disk history] in *; (split; [assumption|]).
  - exists (Enter f :: tr ++ [Return f]). split.
    + rewrite Hh, <- !List.app_assoc. reflexivity.
    + intros c [[=]|[H|[[=]|[]]]%in_app_or]. now apply (Hn c).
  - exists (Enter f :: tr ++ [Raised f e]). split.
    + rewrite Hh, <- !List.app_assoc. reflexivity.
    + intros c [[=]|[H|[[=]|[]]]%in_app_or]. now apply (Hn c).
Qed.

Lemma keeps_logging r : keeps_manifest (logging_info r).
Proof.
  intros w. split; [reflexivity|]. exists [Logged r].
  split; [reflexivity|]. intros c [[=]|[]].
Qed.

Lemma keeps_repo : keeps_manifest Repo_curdir.
Proof.
  intros w. unfold Repo_curdir.
  destruct (repo (disk w)); (split; [reflexivity|]); exists [];
    (split; [simpl; now rewrite List.app_nil_r | intros c []]).
Qed.

Variable E : Externals.
Hypothesis untouched : leaves_manifest E.

Lemma keeps_git c : keeps_manifest (repo_git E c).
Proof.
  intros w. unfold repo_git. pose proof (proj1 untouched c (disk w)) as H.
  destruct (git_run E c (disk w)) as [r d]. cbn [fst snd disk history] in *.
  split; [assumption|]. exists [GitRan c]. split; [reflexivity|].
  intros x [[=]|[]].
Qed.

Lemma keeps_popen : keeps_manifest (popen_build E).
Proof.
  intros w. unfold popen_build. pose proof (proj2 untouched (disk w)) as H.
  destruct (build_sh E (disk w)) as [p d]. cbn [fst snd disk history] in *.
  split; [assumption|]. exists [Spawned]. split; [reflexivity|].
  intros x [[=]|[]].
Qed.

Lemma keeps_after_update prior_ver ver :
  keeps_manifest
    (call F_git_commit_version (git_commit_version E prior_ver ver) ;;
     call F_build_plugin (build_plugin E ver) ;;
     call F_git_commit_new_release (git_commit_new_release E ver)).
Proof.
  apply keeps_bind; [apply keeps_call|intros _].
  { unfold git_commit_version, git_get_repo.
    repeat (apply keeps_bind; [|intros ?]);
      first [apply keeps_repo | apply keeps_git | apply keeps_logging]. }
  apply keeps_bind; [apply keeps_call|intros _].
  { unfold build_plugin. apply keeps_bind; [apply keeps_popen|intros p].
    destruct (decode_utf8 (stdout_read p)); [|apply keeps_raise].
    apply keeps_bind; [apply keeps_logging | intros _; apply keeps_logging]. }
  apply keeps_call. unfold git_commit_new_release, git_get_repo.
  repeat (apply keeps_bind; [|intros ?]);
    first [apply keeps_repo | apply keeps_git | apply keeps_logging].
Qed.

End KeepsManifest.

(** X19. There is no way back: with a [git] and a build that leave
    [info.toml] alone, once a release has written the manifest, the
    manifest on disk at the end of the run is what was written, whether the
    commits and the build went through or one of them raised.  Nothing
    restores the prior version. *)
Theorem manifest_stays_written E bump_level w tr content :
  leaves_manifest E ->
  history (snd (run_release E bump_level w)) = (history w ++ tr)%list ->
  In (Wrote content) tr ->
  info_toml (disk (snd (run_release E bump_level w))) = Some content.
Proof.
  intros Hleave.
  rewrite run_release_unfold, call_check.
  destruct (repo (disk w)) as [r|].
  2:{ cbn [snd history]. intros H%List.app_inv_head. subst tr.
      simpl. intuition discriminate. }
  destruct (bare r); cbn [negb].
  { cbn [snd history]. intros H%List.app_inv_head. subst tr.
    simpl. intuition discriminate. }
  rewrite bind_call_unfold. cbn [disk history].
  match goal with |- context [read_info_toml_version E ?w1] =>
    pose proof (read_world E w1) as [Hd Hh];
    destruct (read_info_toml_version E w1) as [[prior_ver|e] [d2 h2]]
  end; cbn [fst snd disk history] in *; subst d2.
  2:{ destruct Hh as [->|(n & v & ->)]; rewrite <- !List.app_assoc;
        intros H%List.app_inv_head; subst tr; simpl; intuition discriminate. }
  rewrite bind_call_unfold. unfold lift. cbn [disk history].
  destruct (bump_version prior_ver bump_level) as [ver|e].
  2:{ cbn [snd history].
      destruct Hh as [->|(n & v & ->)]; rewrite <- !List.app_assoc;
        intros H%List.app_inv_head; subst tr; simpl; intuition discriminate. }
  rewrite bind_call_unfold. cbn [disk history].
  match goal with |- context [update_info_toml_version prior_ver ver ?w3] =>
    destruct (update_info_toml_version prior_ver ver w3) as [[[]|e] w4] eqn:Hupd
  end.
  - apply update_ok_world in Hupd.
    destruct Hupd as (old & i & _ & _ & -> & _).
    unfold written. cbn [disk history].
    match goal with |- context [?m (mkWorld ?d ?h)] =>
      destruct (keeps_after_update E Hleave prior_ver ver (mkWorld d h))
        as (Hfile & rest & Hrest & Hnone)
    end.
    rewrite Hfile, Hrest. cbn [disk history info_toml].
    destruct Hh as [->|(n & v & ->)]; rewrite <- !List.app_assoc;
      intros H%List.app_inv_head; subst tr; simpl;
      intros Hin;
      repeat (destruct Hin as [Hin|Hin]; [try discriminate|]);
      try (injection Hin as <-; reflexivity);
      exfalso; now apply (Hnone content).
  - apply update_raise_world in Hupd. subst w4.
    cbn [snd disk history].
    destruct Hh as [->|(n & v & ->)]; rewrite <- !List.app_assoc;
      intros H%List.app_inv_head; subst tr; simpl; intuition discriminate.
Qed.

Lemma manifest_stays_written_witness :
  let E := Demo.externals [xff]%byte (Some 0) in
  let w := Demo.world (Some (Demo.manifest "plugin" "0.1.0")) (Some Demo.fresh_repo) in
  leaves_manifest E /\
  fst (run_release E "patch" w) = Raise UnicodeDecodeError /\
  info_toml (disk (snd (run_release E "patch" w)))
  = Some (Demo.manifest "plugin" "0.1.1").
Proof.
  intros E w.
  assert (Hleave : leaves_manifest E).
  { split.
    - intros c d. unfold E, Demo.externals, git_run, Demo.git.
      destruct (repo d) as [r|]; [|reflexivity].
      destruct c as [p|m|n].
      + destruct (if String.eqb p "info.toml"
                  then match info_toml d with
                       | Some _ => ["info.toml"]
                       | None => []
                       end
                  else filter (fun f => Demo.endswith f ".op") (files d));
          reflexivity.
      + destruct (index r); reflexivity.
      + destruct (existsb (String.eqb n) (tags r)); reflexivity.
    - intros d. reflexivity. }
  split; [exact Hleave|]. split; [reflexivity|].
  apply (manifest_stays_written E "patch" w
           (history (snd (run_release E "patch" w))) _ Hleave eq_refl).
  vm_compute. do 8 right. now left.
Defined.

(** X20. The round trip of the version string holds for every triple of
    integers of at most 4300 digits each, the negative ones included:
    [version_to_str] returns, and [int] reads the sign that [str]
    writes. *)
Theorem version_round_trip_signed (v : VersionTuple) :
  (let '(a, b, c) := v in
   Z.of_nat (Py.digits a) <= Py.max_str_digits /\
   Z.of_nat (Py.digits b) <= Py.max_str_digits /\
   Z.of_nat (Py.digits c) <= Py.max_str_digits) ->
  version_to_str_run v = Ok (version_to_str v) /\
  version_from_str (version_to_str v) = Ok v.
Proof.
  destruct v as [[a b] c]. intros (Ha & Hb & Hc). split.
  - now apply version_to_str_run_ok.
  - now apply version_round_trip_any.
Qed.

Lemma version_round_trip_signed_witness :
  version_to_str (-1, 0, -20) = "-1.0.-20" /\
  version_from_str "-1.0.-20" = Ok (-1, 0, -20).
Proof.
  split; [reflexivity|].
  apply (version_round_trip_signed (-1, 0, -20)). vm_compute.
  repeat split; congruence.
Defined.
